(** * A shallow embedding of the DTLS helper packages

    Three Go source files are modelled:
    - the record-layer [applicationData] payload (package dtls),
    - the named-curve key-pair generator [generateKeypair] (package dtls),
    - the UDP connection multiplexer [internal/udp/conn.go].

    Go slices are modelled with an explicit store of backing arrays where
    copying matters, the peer registry [map[string]*Conn] is a [gmap], and the
    goroutines of the multiplexer are the threads of a small-step machine. *)

From Stdlib Require Import ZArith List String Lia Bool.
From stdpp Require Import gmap strings list fin_maps.
Import ListNotations.

Local Open Scope nat_scope.

(** Go's [byte]. *)
Abbreviation byte := Byte.byte.

(* ===================================================================== *)
(** * The application-data payload (package dtls)                         *)
(* ===================================================================== *)

Module AppData.

(** The store of backing arrays: array [i] is the [i]-th element. *)
Abbreviation Mem := (list (list byte)).

(** A Go slice value [[]byte]: a window on a backing array. *)
Record slice := mkSlice { arr : nat; off : nat; len : nat }.

(** The bytes a slice denotes in a store. *)
Definition bytes (m : Mem) (s : slice) : list byte :=
  firstn (len s) (skipn (off s) (nth (arr s) m [])).

(** [append([]byte{}, src...)]: the elements of [src] are written to a
    newly allocated backing array, and a slice on the whole of it is
    returned. *)
Definition append_empty (m : Mem) (src : slice) : Mem * slice :=
  let b := bytes m src in
  (m ++ [b], mkSlice (length m) 0 (length b)).

(** [type applicationData struct { data []byte }] *)
Record applicationData := mkAD { data : slice }.

(** Go's [error] result of the two methods: [None] is [nil]. *)
Definition error := option string.

(** [func (a *applicationData) Marshal(fragmentLen int) ([][]byte, error)] *)
Definition Marshal (m : Mem) (a : applicationData) (fragmentLen : Z)
  : Mem * (list slice * error) :=
  let '(m', raw) := append_empty m (data a) in
  (m', ([raw], None)).

(** [func (a *applicationData) Unmarshal(data []byte) error] *)
Definition Unmarshal (m : Mem) (a : applicationData) (d : slice)
  : Mem * applicationData * error :=
  let '(m', s) := append_empty m d in
  (m', mkAD s, None).

(** Writing one byte through a slice, [s[i] = b]. *)
Definition store_byte (m : Mem) (s : slice) (i : nat) (b : byte) : Mem :=
  if i <? len s
  then alter (fun a => <[off s + i := b]> a) (arr s) m
  else m.

(** The store only grows by allocation: every array of [m] is in [m'], as it
    was. *)
Definition extends (m m' : Mem) : Prop := exists tl, m' = m ++ tl.

(** A store with the five bytes of "hello" in the middle of an array, and
    the slices on them and on the two bytes "lo". *)
Definition hello_mem : Mem :=
  [[Byte.x00; Byte.x68; Byte.x65; Byte.x6c; Byte.x6c; Byte.x6f; Byte.x00]].
Definition hello_slice : slice := mkSlice 0 1 5.
Definition lo_slice : slice := mkSlice 0 4 2.

End AppData.

(* ===================================================================== *)
(** * Named curves and key-pair generation (package dtls)                 *)
(* ===================================================================== *)

Module Curve.

(** [type namedCurve uint16] *)
Definition namedCurve := Z.

Definition namedCurveP256 : namedCurve := 0x0017%Z.
Definition namedCurveP384 : namedCurve := 0x0018%Z.
Definition namedCurveP521 : namedCurve := 0x0019%Z.
Definition namedCurveX25519 : namedCurve := 0x001d%Z.

(** [var namedCurves = map[namedCurve]bool{...}] *)
Definition namedCurves : gmap Z bool :=
  <[namedCurveX25519 := true]>
  (<[namedCurveP256 := true]>
  (<[namedCurveP384 := true]>
  (<[namedCurveP521 := true]> ∅))).

(** [type namedCurveKeypair struct] *)
Record namedCurveKeypair := mkKeypair {
  curve : namedCurve;
  publicKey : list byte;
  privateKey : list byte
}.

(** Go [error] values met by [generateKeypair]: the package's own
    [errInvalidNamedCurve] (declared in a file of the package that is not
    part of the sources at hand) and whatever the random source reports. *)
Inductive error :=
| errInvalidNamedCurve
| errEntropy (msg : string).

Inductive result (A : Type) :=
| Ok (a : A)
| Err (e : error).
Arguments Ok {A} a.
Arguments Err {A} e.

(** The curves of [crypto/elliptic] the function asks for. *)
Inductive ellipticCurve := P256 | P384 | P521.

(** Go's [copy(dst, src)]: overwrites the first [min (len dst) (len src)]
    elements of [dst]. *)
Definition copy (dst src : list byte) : list byte :=
  firstn (length dst) src ++ skipn (length src) dst.

Section WithCrypto.

(** The library calls of [generateKeypair], taken as they are:
    [rand.Read] on a buffer of [n] bytes (the filled buffer, or an error),
    [curve25519.ScalarBaseMult], [elliptic.GenerateKey(curve, rand.Reader)]
    and [elliptic.Marshal]. *)
Variable rand_Read : nat -> result (list byte).
Variable ScalarBaseMult : list byte -> list byte.
Variable GenerateKey : ellipticCurve -> result (list byte * Z * Z).
Variable elliptic_Marshal : ellipticCurve -> Z -> Z -> list byte.

(** [func generateKeypair(c namedCurve)], which returns a pointer to a
    [namedCurveKeypair] and an [error]. *)
Definition generateKeypair (c : namedCurve) : result namedCurveKeypair :=
  if (c =? namedCurveX25519)%Z then
    match rand_Read 32 with
    | Err e => Err e
    | Ok tmp =>
        let private := copy (repeat Byte.x00 32) tmp in
        let public := ScalarBaseMult private in
        Ok (mkKeypair namedCurveX25519 public private)
    end
  else if (c =? namedCurveP256)%Z then
    match GenerateKey P256 with
    | Err e => Err e
    | Ok (privateKey, x, y) =>
        Ok (mkKeypair namedCurveP256 (elliptic_Marshal P256 x y) privateKey)
    end
  else if (c =? namedCurveP384)%Z then
    match GenerateKey P384 with
    | Err e => Err e
    | Ok (privateKey, x, y) =>
        Ok (mkKeypair namedCurveP256 (elliptic_Marshal P384 x y) privateKey)
    end
  else if (c =? namedCurveP521)%Z then
    match GenerateKey P521 with
    | Err e => Err e
    | Ok (privateKey, x, y) =>
        Ok (mkKeypair namedCurveP256 (elliptic_Marshal P521 x y) privateKey)
    end
  else Err errInvalidNamedCurve.

End WithCrypto.

(** The four identifiers the package supports. *)
Definition supported (c : namedCurve) : Prop :=
  c = namedCurveX25519 \/ c = namedCurveP256 \/
  c = namedCurveP384 \/ c = namedCurveP521.

(** Stand-ins for the library calls, to run the function: a random source
    that works and one that fails. *)
Definition rand_ok (n : nat) : result (list byte) := Ok (repeat Byte.x2a n).
Definition rand_fails (n : nat) : result (list byte) :=
  Err (errEntropy "entropy source unavailable").
Definition sbm_stub (private : list byte) : list byte := rev private.
Definition genkey_ok (crv : ellipticCurve) : result (list byte * Z * Z) :=
  Ok ([Byte.x01; Byte.x02], 3%Z, 4%Z).
Definition genkey_fails (crv : ellipticCurve) : result (list byte * Z * Z) :=
  Err (errEntropy "entropy source unavailable").
Definition marshal_stub (crv : ellipticCurve) (x y : Z) : list byte :=
  [Byte.x04].

(** The curve of [crypto/elliptic] that goes with an identifier. *)
Definition curve_of (c : namedCurve) : option ellipticCurve :=
  if (c =? namedCurveP256)%Z then Some P256
  else if (c =? namedCurveP384)%Z then Some P384
  else if (c =? namedCurveP521)%Z then Some P521
  else None.

End Curve.

(* ===================================================================== *)
(** * The UDP connection multiplexer (internal/udp/conn.go)               *)
(* ===================================================================== *)

Module UDP.

(** [const receiveMTU = 8192] *)
Definition receiveMTU : nat := 8 * 1024.
Arguments receiveMTU : simpl never.

(** [const closeRecheckDuration = 100 * time.Millisecond]; durations and
    instants are counted in milliseconds, and a timer armed with a negative
    duration fires at once, as one armed with 0. *)
Definition closeRecheckDuration : nat := 100.

(** The [error] values of the file: its own [errClosedListener], [io.EOF],
    and what the [net] package reports on a socket that is closed or cannot
    be bound, and on a datagram it cannot send. *)
Inductive error :=
| errClosedListener
| EOF
| errNetClosing
| errBind (msg : string)
| errSend (msg : string).

Inductive result (A : Type) :=
| Ok (a : A)
| Err (e : error).
Arguments Ok {A} a.
Arguments Err {A} e.

(** A [net.Addr], identified with its [String()] form, the key of the
    registry. *)
Abbreviation Addr := string.

(** Go's [copy(dst, src)]: the first [min (len dst) (len src)] elements of
    [dst] are overwritten with those of [src]; that many are reported. *)
Definition copy (dst src : list byte) : list byte * nat :=
  (firstn (length dst) src ++ skipn (length src) dst,
   Nat.min (length dst) (length src)).

(** ** The shared socket, [*net.UDPConn] *)

Record UDPConn := mkUDPConn {
  closed : bool;                       (* Close has been called on it *)
  sent : list (list byte * Addr);      (* the datagrams written, oldest first *)
  (* the answer of the network to a send, after the datagrams sent so far:
     the error it reports for this buffer and this address, if any *)
  refuses : list (list byte * Addr) -> list byte -> Addr -> option error
}.

(** [pConn.Close()] *)
Definition UDPConn_Close (u : UDPConn) : UDPConn * option error :=
  if closed u then (u, Some errNetClosing)
  else (mkUDPConn true (sent u) (refuses u), None).

(** [pConn.WriteTo(p, addr)]. A closed socket reports the error of the
    [net] package. On an open one the datagram either goes out whole, and
    [len(p)] is returned, or the network refuses it (a buffer longer than a
    datagram can be, an address that cannot be reached): then nothing is
    sent and the call returns 0 and the error. *)
Definition WriteTo (u : UDPConn) (p : list byte) (a : Addr)
  : UDPConn * (nat * option error) :=
  if closed u then (u, (0, Some errNetClosing))
  else
    match refuses u (sent u) p a with
    | Some e => (u, (0, Some e))
    | None =>
        (mkUDPConn false (sent u ++ [(p, a)]) (refuses u), (length p, None))
    end.

(** [pConn.ReadFrom(buf)] when the datagram [payload] is the next one in
    the socket: what does not fit in [buf] is lost. *)
Definition ReadFrom (buf payload : list byte) : list byte * nat :=
  copy buf payload.

(** ** The data model *)

(** Pointers to [Conn] objects are indices in the store [heap]. *)
Abbreviation ConnPtr := nat.

(** The model has one multiplexer; this is the pointer to it. *)
Inductive ListenerPtr := thisListener.

(** [type Conn struct]. The channels [readCh] and [sizeCh] are unbuffered and
    hold no data of their own; [doneCh] is only ever closed, and [c_doneCh]
    tells whether it has been. [c_doneOnce] is the [sync.Once]. The mutex
    [lock] is part of the machine below. *)
Record Conn := mkConn {
  listener : option ListenerPtr;
  rAddr : Addr;
  c_doneCh : bool;
  c_doneOnce : bool
}.

(** [type Listener struct]. [acceptCh] is unbuffered: the field records the
    connections handed over it so far, oldest first. *)
Record Listener := mkListener {
  pConn : UDPConn;
  accepting : bool;
  acceptCh : list ConnPtr;
  l_doneCh : bool;
  l_doneOnce : bool;
  conns : gmap string ConnPtr
}.

Record State := mkState {
  lsn : Listener;
  heap : list Conn
}.

Definition set_pConn (u : UDPConn) (l : Listener) : Listener :=
  mkListener u (accepting l) (acceptCh l) (l_doneCh l) (l_doneOnce l) (conns l).

Definition set_conns (m : gmap string ConnPtr) (l : Listener) : Listener :=
  mkListener (pConn l) (accepting l) (acceptCh l) (l_doneCh l) (l_doneOnce l) m.

Definition push_acceptCh (c : ConnPtr) (l : Listener) : Listener :=
  mkListener (pConn l) (accepting l) (acceptCh l ++ [c]) (l_doneCh l)
    (l_doneOnce l) (conns l).

Definition set_done (l : Listener) : Listener :=
  mkListener (pConn l) (accepting l) (acceptCh l) true true (conns l).

(** ** The methods, one call at a time *)

(** [func Listen(network string, laddr *net.UDPAddr)], returning a
    [*Listener] and an [error], given what [net.ListenUDP] returned. Fields
    the composite literal does not name take Go's zero value: [accepting]
    is [false]. The goroutine [readLoop] it starts is part of the machine
    below. *)
Definition Listen (bound : result UDPConn) : result State :=
  match bound with
  | Err e => Err e
  | Ok conn =>
      Ok (mkState (mkListener conn false [] false false ∅) [])
  end.

(** [func (l *Listener) newConn(rAddr net.Addr) *Conn] *)
Definition newConn (rAddr : Addr) : Conn :=
  mkConn (Some thisListener) rAddr false false.

(** The part of [getConn] before the send on [acceptCh]: the result, and
    whether a connection was created. *)
Definition getConn_lookup (s : State) (raddr : Addr)
  : State * result ConnPtr * bool :=
  match conns (lsn s) !! raddr with
  | Some conn => (s, Ok conn, false)
  | None =>
      if negb (accepting (lsn s)) then (s, Err errClosedListener, false)
      else
        let conn := length (heap s) in
        (mkState (set_conns (<[raddr := conn]> (conns (lsn s))) (lsn s))
                 (heap s ++ [newConn raddr]),
         Ok conn, true)
  end.

(** [l.acceptCh <- conn], once an [Accept] takes it. *)
Definition acceptCh_send (s : State) (conn : ConnPtr) : State :=
  mkState (push_acceptCh conn (lsn s)) (heap s).

(** [func (l *Listener) getConn(raddr net.Addr)], returning a [*Conn] and an
    [error], with an [Accept] waiting for each new connection. *)
Definition getConn (s : State) (raddr : Addr) : State * result ConnPtr :=
  match getConn_lookup s raddr with
  | (s', Ok conn, true) => (acceptCh_send s' conn, Ok conn)
  | (s', r, _) => (s', r)
  end.

(** [func (c *Conn) Write(p []byte) (n int, err error)]; [None] stands for
    a call on a pointer that is not in the store. *)
Definition Conn_Write (s : State) (c : ConnPtr) (p : list byte)
  : option (State * (nat * option error)) :=
  conn ← heap s !! c;
  match listener conn with
  | None => Some (s, (0, Some EOF))
  | Some _ =>
      let '(u, r) := WriteTo (pConn (lsn s)) p (rAddr conn) in
      Some (mkState (set_pConn u (lsn s)) (heap s), r)
  end.

(** The body of the [doneOnce.Do] of [Conn.Close], in two parts:
    [close(c.doneCh)] with the once marked, *)
Definition close_doneCh (s : State) (c : ConnPtr) (conn : Conn) : State :=
  mkState (lsn s)
          (<[c := mkConn (listener conn) (rAddr conn) true true]> (heap s)).

(** then [delete(c.listener.conns, c.rAddr.String())] under the listener's
    lock and [c.listener = nil]. *)
Definition unregister (s : State) (c : ConnPtr) (conn : Conn) : State :=
  mkState (set_conns (delete (rAddr conn) (conns (lsn s))) (lsn s))
          (<[c := mkConn None (rAddr conn) (c_doneCh conn) (c_doneOnce conn)]>
             (heap s)).

(** [func (c *Conn) Close() error]. The call panics (here [None]) when the
    once has not run and either [c.doneCh] is closed already or [c.listener]
    is nil; a connection made by [newConn] meets neither. *)
Definition Conn_Close (s : State) (c : ConnPtr)
  : option (State * option error) :=
  conn ← heap s !! c;
  if c_doneOnce conn then Some (s, None)
  else
    match c_doneCh conn, listener conn with
    | false, Some _ =>
        let s1 := close_doneCh s c conn in
        conn1 ← heap s1 !! c;
        Some (unregister s1 c conn1, None)
    | _, _ => None
    end.

(** The [for]/[select] of [closeConn], [elapsed] milliseconds after the
    timer was armed. The select wakes at the earlier of the two timers; the
    timeout timer is taken when both fire at the same instant (taking the
    recheck then leads to the timeout timer in the next round, at the same
    instant). The result carries the instant of the return. *)
Fixpoint closeConn_loop (fuel : nat) (l : Listener) (elapsed timeout : nat)
  : option (Listener * option error * nat) :=
  match fuel with
  | 0 => None
  | S fuel' =>
      if timeout <=? elapsed + closeRecheckDuration then
        let '(u, err) := UDPConn_Close (pConn l) in
        Some (set_pConn u l, err, Nat.max elapsed timeout)
      else if size (conns l) =? 0 then
        let '(u, err) := UDPConn_Close (pConn l) in
        Some (set_pConn u l, err, elapsed + closeRecheckDuration)
      else closeConn_loop fuel' l (elapsed + closeRecheckDuration) timeout
  end.

(** [func (l *Listener) closeConn(timeout time.Duration) error], run with
    the lock held, so that no other goroutine changes the registry. The last
    component is the time the call took. *)
Definition closeConn (l : Listener) (timeout : nat)
  : option (Listener * option error * nat) :=
  if size (conns l) =? 0 then
    let '(u, err) := UDPConn_Close (pConn l) in
    Some (set_pConn u l, err, 0)
  else closeConn_loop (S (timeout / closeRecheckDuration)) l 0 timeout.

(** [func (l *Listener) Close(timeout time.Duration) error]: the once
    closes [l.doneCh] and runs [closeConn]. *)
Definition Listener_Close (s : State) (timeout : nat)
  : option (State * option error * nat) :=
  if l_doneOnce (lsn s) then Some (s, None, 0)
  else if l_doneCh (lsn s) then None   (* close of a closed channel *)
  else
    '(l', err, waited) ← closeConn (set_done (lsn s)) timeout;
    Some (mkState l' (heap s), err, waited).

(** ** The goroutines *)

(** The callers' goroutines are numbered; the dispatch loop started by
    [Listen] is a goroutine of its own. *)
Abbreviation tid := nat.

Inductive owner :=
| Dispatcher
| Caller (t : tid).

(** The control points of [readLoop] (with [getConn] inlined), each with
    the local variables that are live there. *)
Inductive loop_pc :=
| Loop_start
| Loop_ReadFrom (buf : list byte)
| Loop_getConn (buf : list byte) (n : nat) (raddr : Addr)
| Loop_acceptSend (buf : list byte) (n : nat) (conn : ConnPtr)
| Loop_getConn_ret (buf : list byte) (n : nat) (r : result ConnPtr)
| Loop_select (buf : list byte) (n : nat) (conn : ConnPtr)
| Loop_parked (buf : list byte) (n : nat) (conn : ConnPtr)
| Loop_copy (buf : list byte) (n : nat) (conn : ConnPtr) (cBuf : tid)
| Loop_sizeSend (buf : list byte) (n : nat) (conn : ConnPtr)
| Loop_exit.

(** The control points of the calls a caller makes. A caller's buffer [p]
    lives with its goroutine; the loop reaches it through the goroutine's
    number once [readCh] has passed the slice on. *)
Inductive pc :=
| Accept_select
| Accept_ret (r : result ConnPtr)
| LClose_Lock (timeout : nat)
| LClose_Do (timeout : nat)
| LClose_closeConn (timeout : nat)
| LClose_select (deadline recheck : nat)
| LClose_Unlock (err : option error)
| LClose_ret (err : option error)
| Read_select (c : ConnPtr) (p : list byte)
| Read_parked (c : ConnPtr) (p : list byte)
| Read_sizeRecv (c : ConnPtr) (p : list byte)
| Read_ret (n : nat) (err : option error) (p : list byte)
| Write_Lock (c : ConnPtr) (p : list byte)
| Write_send (c : ConnPtr) (p : list byte) (l : option ListenerPtr)
| Write_ret (n : nat) (err : option error)
| CClose_Lock (c : ConnPtr)
| CClose_Do (c : ConnPtr)
| CClose_listenerLock (c : ConnPtr)
| CClose_delete (c : ConnPtr)
| CClose_Unlock (c : ConnPtr)
| CClose_ret (err : option error).

(** A call starts at its first control point. *)
Definition is_entry (p : pc) : bool :=
  match p with
  | Accept_select | LClose_Lock _ | Read_select _ _ | Write_Lock _ _
  | CClose_Lock _ => true
  | _ => false
  end.

Record Machine := mkMachine {
  st : State;
  l_lock : option owner;          (* who holds the listener's [lock] *)
  c_lock : gmap nat tid;          (* who holds each connection's [lock] *)
  loop : loop_pc;
  threads : list pc;
  now : nat                       (* the clock, in milliseconds *)
}.

Definition set_st (s : State) (m : Machine) : Machine :=
  mkMachine s (l_lock m) (c_lock m) (loop m) (threads m) (now m).
Definition set_l_lock (o : option owner) (m : Machine) : Machine :=
  mkMachine (st m) o (c_lock m) (loop m) (threads m) (now m).
Definition set_c_lock (k : gmap nat tid) (m : Machine) : Machine :=
  mkMachine (st m) (l_lock m) k (loop m) (threads m) (now m).
Definition set_loop (lp : loop_pc) (m : Machine) : Machine :=
  mkMachine (st m) (l_lock m) (c_lock m) lp (threads m) (now m).
Definition set_threads (ts : list pc) (m : Machine) : Machine :=
  mkMachine (st m) (l_lock m) (c_lock m) (loop m) ts (now m).
Definition set_thread (t : tid) (p : pc) (m : Machine) : Machine :=
  set_threads (<[t := p]> (threads m)) m.
Definition set_now (n : nat) (m : Machine) : Machine :=
  mkMachine (st m) (l_lock m) (c_lock m) (loop m) (threads m) n.

(** [pConn.Close()] on the machine's socket. *)
Definition close_socket (m : Machine) : Machine * option error :=
  let '(u, err) := UDPConn_Close (pConn (lsn (st m))) in
  (set_st (mkState (set_pConn u (lsn (st m))) (heap (st m))) m, err).

(** Closing [c.doneCh] wakes every goroutine parked in a select on it: the
    woken select takes its [<-doneCh] case. *)
Definition wake (c : ConnPtr) (p : pc) : pc :=
  match p with
  | Read_parked c' buf => if c' =? c then Read_ret 0 (Some EOF) buf else p
  | _ => p
  end.

Definition wake_loop (c : ConnPtr) (lp : loop_pc) : loop_pc :=
  match lp with
  | Loop_parked buf n c' => if c' =? c then Loop_ReadFrom buf else lp
  | _ => lp
  end.

Definition parked_on (c : ConnPtr) (p : pc) : bool :=
  match p with
  | Read_parked c' _ => c' =? c
  | _ => false
  end.

Definition loop_parked_on (c : ConnPtr) (lp : loop_pc) : bool :=
  match lp with
  | Loop_parked _ _ c' => c' =? c
  | _ => false
  end.


(** ** The steps *)

(** What moves the machine: time passing, a caller starting a call, a
    datagram arriving or the socket reporting an error, a goroutine running
    to its next control point, a select taking one of its cases or parking,
    and two goroutines meeting on an unbuffered channel. *)
Inductive action :=
| Advance (d : nat)
| Spawn (p : pc)
| LoopRun
| LoopDeliver (payload : list byte) (raddr : Addr)
| LoopFail
| LoopDone
| LoopPark
| Run (t : tid)
| Timer (t : tid)
| Recheck (t : tid)
| Done (t : tid)
| Park (t : tid)
| Handoff (t : tid)
| SizeRv (t : tid)
| AcceptRv (t : tid).

(** A step of [readLoop] that needs no partner. [None] is a goroutine that
    cannot move: blocked, finished, or stopped by a nil dereference. *)
Definition exec_LoopRun (m : Machine) : option Machine :=
  match loop m with
  | Loop_start =>
      (* buf := make([]byte, receiveMTU) *)
      Some (set_loop (Loop_ReadFrom (repeat Byte.x00 receiveMTU)) m)
  | Loop_getConn buf n raddr =>
      (* l.lock.Lock(), the lookup, the creation *)
      match l_lock m with
      | Some _ => None
      | None =>
          let m' := set_l_lock (Some Dispatcher) m in
          match getConn_lookup (st m) raddr with
          | (s', Ok conn, true) =>
              Some (set_loop (Loop_acceptSend buf n conn) (set_st s' m'))
          | (s', r, _) =>
              Some (set_loop (Loop_getConn_ret buf n r) (set_st s' m'))
          end
      end
  | Loop_getConn_ret buf n r =>
      (* the deferred l.lock.Unlock(), then the test of err *)
      let m' := set_l_lock None m in
      match r with
      | Err _ => Some (set_loop (Loop_ReadFrom buf) m')
      | Ok conn => Some (set_loop (Loop_select buf n conn) m')
      end
  | Loop_copy buf n conn r =>
      (* n = copy(cBuf, buf[:n]) *)
      match threads m !! r with
      | Some (Read_sizeRecv c cBuf) =>
          let '(cBuf', n') := copy cBuf (firstn n buf) in
          Some (set_loop (Loop_sizeSend buf n' conn)
                  (set_thread r (Read_sizeRecv c cBuf') m))
      | _ => None
      end
  | _ => None
  end.

(** [n, raddr, err := l.pConn.ReadFrom(buf)] returning a datagram. *)
Definition exec_LoopDeliver (m : Machine) (payload : list byte) (raddr : Addr)
  : option Machine :=
  match loop m with
  | Loop_ReadFrom buf =>
      if closed (pConn (lsn (st m))) then None
      else
        let '(buf', n) := ReadFrom buf payload in
        Some (set_loop (Loop_getConn buf' n raddr) m)
  | _ => None
  end.

(** [l.pConn.ReadFrom(buf)] returning an error, as it does once the socket
    is closed: [readLoop] returns. *)
Definition exec_LoopFail (m : Machine) : option Machine :=
  match loop m with
  | Loop_ReadFrom _ => Some (set_loop Loop_exit m)
  | _ => None
  end.

(** The select of [readLoop] taking [<-conn.doneCh]. *)
Definition exec_LoopDone (m : Machine) : option Machine :=
  match loop m with
  | Loop_select buf n c =>
      conn ← heap (st m) !! c;
      if c_doneCh conn then Some (set_loop (Loop_ReadFrom buf) m) else None
  | _ => None
  end.

(** The select of [readLoop] finding no case ready. *)
Definition exec_LoopPark (m : Machine) : option Machine :=
  match loop m with
  | Loop_select buf n c =>
      conn ← heap (st m) !! c;
      if c_doneCh conn || existsb (parked_on c) (threads m) then None
      else Some (set_loop (Loop_parked buf n c) m)
  | _ => None
  end.

(** A step of a caller's goroutine that needs no partner. *)
Definition exec_Run (m : Machine) (t : tid) (p : pc) : option Machine :=
  match p with
  | LClose_Lock timeout =>
      match l_lock m with
      | Some _ => None
      | None =>
          Some (set_thread t (LClose_Do timeout)
                  (set_l_lock (Some (Caller t)) m))
      end
  | LClose_Do timeout =>
      if l_doneOnce (lsn (st m)) then Some (set_thread t (LClose_Unlock None) m)
      else if l_doneCh (lsn (st m)) then None
      else
        (* close(l.doneCh) *)
        Some (set_thread t (LClose_closeConn timeout)
                (set_st (mkState (set_done (lsn (st m))) (heap (st m))) m))
  | LClose_closeConn timeout =>
      if size (conns (lsn (st m))) =? 0 then
        let '(m', err) := close_socket m in
        Some (set_thread t (LClose_Unlock err) m')
      else
        (* timeoutTimer := time.NewTimer(timeout); time.After(...) *)
        Some (set_thread t
                (LClose_select (now m + timeout) (now m + closeRecheckDuration))
                m)
  | LClose_Unlock err =>
      Some (set_thread t (LClose_ret err) (set_l_lock None m))
  | Write_Lock c buf =>
      (* c.lock.Lock(); l := c.listener; c.lock.Unlock() *)
      match c_lock m !! c with
      | Some _ => None
      | None =>
          conn ← heap (st m) !! c;
          Some (set_thread t (Write_send c buf (listener conn)) m)
      end
  | Write_send c buf l =>
      match l with
      | None => Some (set_thread t (Write_ret 0 (Some EOF)) m)
      | Some _ =>
          conn ← heap (st m) !! c;
          let '(u, (n, err)) := WriteTo (pConn (lsn (st m))) buf (rAddr conn) in
          Some (set_thread t (Write_ret n err)
                  (set_st (mkState (set_pConn u (lsn (st m))) (heap (st m))) m))
      end
  | CClose_Lock c =>
      match c_lock m !! c with
      | Some _ => None
      | None =>
          Some (set_thread t (CClose_Do c) (set_c_lock (<[c := t]> (c_lock m)) m))
      end
  | CClose_Do c =>
      conn ← heap (st m) !! c;
      if c_doneOnce conn then Some (set_thread t (CClose_Unlock c) m)
      else if c_doneCh conn then None
      else
        (* close(c.doneCh) *)
        Some (set_thread t (CClose_listenerLock c)
                (set_loop (wake_loop c (loop m))
                   (set_threads (wake c <$> threads m)
                      (set_st (close_doneCh (st m) c conn) m))))
  | CClose_listenerLock c =>
      conn ← heap (st m) !! c;
      match listener conn, l_lock m with
      | Some _, None =>
          Some (set_thread t (CClose_delete c) (set_l_lock (Some (Caller t)) m))
      | _, _ => None
      end
  | CClose_delete c =>
      (* delete(...); c.listener.lock.Unlock(); c.listener = nil *)
      conn ← heap (st m) !! c;
      Some (set_thread t (CClose_Unlock c)
              (set_l_lock None (set_st (unregister (st m) c conn) m)))
  | CClose_Unlock c =>
      Some (set_thread t (CClose_ret None)
              (set_c_lock (delete c (c_lock m)) m))
  | _ => None
  end.

(** The select of [closeConn] taking [<-timeoutTimer.C]. *)
Definition exec_Timer (m : Machine) (t : tid) (p : pc) : option Machine :=
  match p with
  | LClose_select deadline _ =>
      if deadline <=? now m then
        let '(m', err) := close_socket m in
        Some (set_thread t (LClose_Unlock err) m')
      else None
  | _ => None
  end.

(** The select of [closeConn] taking [<-time.After(closeRecheckDuration)]. *)
Definition exec_Recheck (m : Machine) (t : tid) (p : pc) : option Machine :=
  match p with
  | LClose_select deadline recheck =>
      if recheck <=? now m then
        if size (conns (lsn (st m))) =? 0 then
          let '(m', err) := close_socket m in
          Some (set_thread t (LClose_Unlock err) m')
        else
          Some (set_thread t
                  (LClose_select deadline (now m + closeRecheckDuration)) m)
      else None
  | _ => None
  end.

(** A select of [Accept] or [Read] taking its [<-doneCh] case. *)
Definition exec_Done (m : Machine) (t : tid) (p : pc) : option Machine :=
  match p with
  | Accept_select =>
      if l_doneCh (lsn (st m))
      then Some (set_thread t (Accept_ret (Err errClosedListener)) m)
      else None
  | Read_select c buf =>
      conn ← heap (st m) !! c;
      if c_doneCh conn then Some (set_thread t (Read_ret 0 (Some EOF) buf) m)
      else None
  | _ => None
  end.

(** The select of [Read] finding no case ready. *)
Definition exec_Park (m : Machine) (t : tid) (p : pc) : option Machine :=
  match p with
  | Read_select c buf =>
      conn ← heap (st m) !! c;
      if c_doneCh conn || loop_parked_on c (loop m) then None
      else Some (set_thread t (Read_parked c buf) m)
  | _ => None
  end.

(** [c.readCh <- p] meeting [cBuf := <-conn.readCh]: one side is parked in
    its select, the other arrives at its own. *)
Definition exec_Handoff (m : Machine) (t : tid) (p : pc) : option Machine :=
  match p, loop m with
  | Read_select c cBuf, Loop_parked buf n c'
  | Read_parked c cBuf, Loop_select buf n c' =>
      if c =? c' then
        Some (set_loop (Loop_copy buf n c' t)
                (set_thread t (Read_sizeRecv c cBuf) m))
      else None
  | _, _ => None
  end.

(** [conn.sizeCh <- n] meeting [n := <-c.sizeCh]. *)
Definition exec_SizeRv (m : Machine) (t : tid) (p : pc) : option Machine :=
  match p, loop m with
  | Read_sizeRecv c cBuf, Loop_sizeSend buf n c' =>
      if c =? c' then
        Some (set_loop (Loop_ReadFrom buf)
                (set_thread t (Read_ret n None cBuf) m))
      else None
  | _, _ => None
  end.

(** [l.acceptCh <- conn] meeting [c := <-l.acceptCh]. *)
Definition exec_AcceptRv (m : Machine) (t : tid) (p : pc) : option Machine :=
  match p, loop m with
  | Accept_select, Loop_acceptSend buf n conn =>
      Some (set_loop (Loop_getConn_ret buf n (Ok conn))
              (set_thread t (Accept_ret (Ok conn))
                 (set_st (acceptCh_send (st m) conn) m)))
  | _, _ => None
  end.

Definition exec (m : Machine) (a : action) : option Machine :=
  match a with
  | Advance d => Some (set_now (now m + d) m)
  | Spawn p =>
      if is_entry p then Some (set_threads (threads m ++ [p]) m) else None
  | LoopRun => exec_LoopRun m
  | LoopDeliver payload raddr => exec_LoopDeliver m payload raddr
  | LoopFail => exec_LoopFail m
  | LoopDone => exec_LoopDone m
  | LoopPark => exec_LoopPark m
  | Run t => threads m !! t ≫= exec_Run m t
  | Timer t => threads m !! t ≫= exec_Timer m t
  | Recheck t => threads m !! t ≫= exec_Recheck m t
  | Done t => threads m !! t ≫= exec_Done m t
  | Park t => threads m !! t ≫= exec_Park m t
  | Handoff t => threads m !! t ≫= exec_Handoff m t
  | SizeRv t => threads m !! t ≫= exec_SizeRv m t
  | AcceptRv t => threads m !! t ≫= exec_AcceptRv m t
  end.

(** A schedule, run from left to right. *)
Fixpoint run (m : Machine) (sched : list action) : option Machine :=
  match sched with
  | [] => Some m
  | a :: sched' => exec m a ≫= fun m' => run m' sched'
  end.

(** The machine right after [Listen]: the dispatch loop has been started,
    no caller has made a call yet. *)
Definition boot (s : State) : Machine :=
  mkMachine s None ∅ Loop_start [] 0.

(** ** Invariants of the machine *)

(** The control points at which a goroutine holds the listener's lock. *)
Definition holds_l (p : pc) : bool :=
  match p with
  | LClose_Do _ | LClose_closeConn _ | LClose_select _ _ | LClose_Unlock _
  | CClose_delete _ => true
  | _ => false
  end.

Definition loop_holds_l (lp : loop_pc) : bool :=
  match lp with
  | Loop_acceptSend _ _ _ | Loop_getConn_ret _ _ _ => true
  | _ => false
  end.

(** Mutual exclusion: who is in a critical section of [l.lock] owns it. *)
Definition lock_inv (m : Machine) : Prop :=
  (loop_holds_l (loop m) = true -> l_lock m = Some Dispatcher) /\
  (forall t p, threads m !! t = Some p -> holds_l p = true ->
               l_lock m = Some (Caller t)).

(** The connection [c] is in the store with [doneCh] open, or closed. *)
Definition conn_open (m : Machine) (c : ConnPtr) : Prop :=
  exists conn, heap (st m) !! c = Some conn /\ c_doneCh conn = false.

Definition conn_closed (m : Machine) (c : ConnPtr) : Prop :=
  exists conn, heap (st m) !! c = Some conn /\ c_doneCh conn = true.

(** A goroutine parked in a select with [<-c.doneCh] among its cases is
    parked on a connection whose [doneCh] is open. *)
Definition park_inv (m : Machine) : Prop :=
  (forall buf n c, loop m = Loop_parked buf n c -> conn_open m c) /\
  (forall t c p, threads m !! t = Some (Read_parked c p) -> conn_open m c).

(** The buffer of [readLoop] keeps its [receiveMTU] bytes, and the count
    [n] never exceeds it. *)
Definition loop_buf_ok (lp : loop_pc) : Prop :=
  match lp with
  | Loop_start | Loop_exit => True
  | Loop_ReadFrom buf => length buf = receiveMTU
  | Loop_getConn buf n _ | Loop_acceptSend buf n _ | Loop_getConn_ret buf n _
  | Loop_select buf n _ | Loop_parked buf n _ | Loop_copy buf n _ _
  | Loop_sizeSend buf n _ => length buf = receiveMTU /\ n <= receiveMTU
  end.

(** Who waits on [sizeCh]: at most one reader, and only while the loop
    holds its buffer or is about to send a count that fits it. *)
Definition size_ok (m : Machine) : Prop :=
  (forall t c p, threads m !! t = Some (Read_sizeRecv c p) ->
     (exists buf n c', loop m = Loop_copy buf n c' t) \/
     (exists buf n c', loop m = Loop_sizeSend buf n c' /\ n <= length p)) /\
  (forall t t' c c' p p',
     threads m !! t = Some (Read_sizeRecv c p) ->
     threads m !! t' = Some (Read_sizeRecv c' p') -> t = t').

(** What a [Read] that succeeded has returned. *)
Definition ret_ok (m : Machine) : Prop :=
  forall t n p, threads m !! t = Some (Read_ret n None p) ->
                n <= Nat.min (length p) receiveMTU.

Definition buf_inv (m : Machine) : Prop :=
  loop_buf_ok (loop m) /\ size_ok m /\ ret_ok m.

(** The control points of [readLoop] at which it holds no connection. *)
Definition loop_no_conn (lp : loop_pc) : bool :=
  match lp with
  | Loop_start | Loop_ReadFrom _ | Loop_getConn _ _ _
  | Loop_getConn_ret _ _ (Err _) | Loop_exit => true
  | _ => false
  end.

(** A multiplexer that has made no connection and is not accepting. *)
Definition never_accepts (m : Machine) : Prop :=
  accepting (lsn (st m)) = false /\
  conns (lsn (st m)) = ∅ /\
  acceptCh (lsn (st m)) = [] /\
  heap (st m) = [] /\
  loop_no_conn (loop m) = true /\
  (forall t c, threads m !! t <> Some (Accept_ret (Ok c))).

(** The goroutine is inside [closeConn], which it entered no earlier than
    the instant [since] with the given timeout: it is about to arm the
    timer, or waits in the select on a timer armed for [since + timeout] or
    later. *)
Definition in_closeConn (p : pc) (since timeout : nat) : Prop :=
  p = LClose_closeConn timeout \/
  exists deadline recheck,
    p = LClose_select deadline recheck /\ since + timeout <= deadline.

(** While goroutine [t] is inside [closeConn] the socket is open and the
    registry is [R]; once the socket is closed the timeout has elapsed. *)
Definition grace_inv (t : tid) (since timeout : nat)
    (R : gmap string ConnPtr) (m : Machine) : Prop :=
  lock_inv m /\ since <= now m /\
  ((closed (pConn (lsn (st m))) = false /\
    conns (lsn (st m)) = R /\
    exists p, threads m !! t = Some p /\ in_closeConn p since timeout) \/
   (closed (pConn (lsn (st m))) = true /\ since + timeout <= now m)).

(** A [Read] of goroutine [t] on the closed connection [c] is at its select
    or has returned [0, io.EOF], with its buffer [p] as it was. *)
Definition read_inv (t : tid) (c : ConnPtr) (p : list byte) (m : Machine)
  : Prop :=
  park_inv m /\ conn_closed m c /\
  (threads m !! t = Some (Read_select c p) \/
   threads m !! t = Some (Read_ret 0 (Some EOF) p)).

(** ** Some states to run the model on *)

(** The most a UDP datagram carries over IPv4, and a network that takes
    every datagram up to that length and reports "message too long" for a
    longer one. *)
Definition maxPayload : Z := 65507%Z.

Definition too_long (before : list (list byte * Addr)) (p : list byte)
    (a : Addr) : option error :=
  if (maxPayload <? Z.of_nat (length p))%Z
  then Some (errSend "message too long") else None.

Definition sock0 : UDPConn := mkUDPConn false [] too_long.
Definition peerA : Addr := "10.0.0.1:4000".
Definition peerB : Addr := "10.0.0.2:4000".
Definition hello : list byte :=
  [Byte.x68; Byte.x65; Byte.x6c; Byte.x6c; Byte.x6f].

(** The multiplexer as [Listen] leaves it. *)
Definition listening : State :=
  mkState (mkListener sock0 false [] false false ∅) [].

(** A multiplexer that is accepting and has one open peer, accepted
    already. *)
Definition one_peer : State :=
  mkState (mkListener sock0 true [0] false false {[peerA := 0]})
          [newConn peerA].

(** Datagrams from two peers reach the multiplexer [Listen] made, and an
    [Accept] waits. *)
Definition two_datagrams : list action :=
  [LoopRun; LoopDeliver hello peerA; LoopRun; LoopRun; Spawn Accept_select;
   LoopDeliver hello peerB; LoopRun; LoopRun].

(** [Listener.Close(300ms)] by goroutine 0 up to the entry of [closeConn];
    goroutine 1 is about to call [Close] on the peer. *)
Definition close_begins : list action :=
  [Spawn (LClose_Lock 300); Spawn (CClose_Lock 0); Run 0; Run 0].

(** The timers are armed, the peer calls [Close] at once, and the
    multiplexer rechecks twice. *)
Definition grace_wait : list action :=
  [Run 0; Run 1; Run 1; Advance 100; Recheck 0; Advance 100; Recheck 0].

(** Then the timeout timer fires. *)
Definition grace_expires : list action :=
  grace_wait ++ [Advance 100; Timer 0].

(** The peer is closed by goroutine 0; goroutine 1 then calls [Read]. *)
Definition close_then_read : list action :=
  [Spawn (CClose_Lock 0); Run 0; Run 0; Run 0; Run 0; Run 0;
   Spawn (Read_select 0 hello)].

(** A datagram of five bytes for the open peer is read into a buffer of
    three. *)
Definition read_three : list action :=
  [LoopRun; LoopDeliver hello peerA; LoopRun; LoopRun;
   Spawn (Read_select 0 [Byte.x00; Byte.x00; Byte.x00]);
   LoopPark; Handoff 0; LoopRun; SizeRv 0].

(** Goroutine 0 is about to call [Write] on the open peer. *)
Definition writer_machine : Machine :=
  set_threads [Write_Lock 0 hello] (boot one_peer).

(** Goroutine 0 is about to call [Write] on the open peer with a buffer of
    70000 bytes. *)
Definition big_writer : Machine :=
  set_threads [Write_Lock 0 (repeat Byte.x00 (70 * 1000))] (boot one_peer).

(** ** More of the file *)

(** [func (c *Conn) RemoteAddr() net.Addr] *)
Definition Conn_RemoteAddr (s : State) (c : ConnPtr) : option Addr :=
  conn ← heap s !! c;
  Some (rAddr conn).

(** [getConn] for the source addresses of a sequence of datagrams, as
    [readLoop] calls it, one datagram after the other. *)
Fixpoint getConns (s : State) (raddrs : list Addr)
  : State * list (result ConnPtr) :=
  match raddrs with
  | [] => (s, [])
  | raddr :: raddrs' =>
      let '(s1, r) := getConn s raddr in
      let '(s2, rs) := getConns s1 raddrs' in
      (s2, r :: rs)
  end.

(** The addresses of a sequence that are not among those [seen], each at
    its first appearance. *)
Fixpoint first_seen (seen : gset string) (raddrs : list Addr) : list Addr :=
  match raddrs with
  | [] => []
  | raddr :: raddrs' =>
      if decide (raddr ∈ seen) then first_seen seen raddrs'
      else raddr :: first_seen ({[raddr]} ∪ seen) raddrs'
  end.

(** Every entry of the registry leads to a connection of the store that
    has the entry's address and still has its listener. *)
Definition reg_wf (s : State) : Prop :=
  forall a c, conns (lsn s) !! a = Some c ->
    exists conn, heap s !! c = Some conn /\ rAddr conn = a /\
                 listener conn = Some thisListener.

(** The connections of the store as [newConn] and [Close] leave them: the
    once has run exactly when [doneCh] is closed, and a connection whose
    once has not run has its listener. *)
Definition heap_wf (s : State) : Prop :=
  forall c conn, heap s !! c = Some conn ->
    c_doneOnce conn = c_doneCh conn /\
    (c_doneOnce conn = false -> listener conn = Some thisListener).

(** The connection whose [lock] a goroutine holds at a control point. *)
Definition holds_c (p : pc) : option ConnPtr :=
  match p with
  | CClose_Do c | CClose_listenerLock c | CClose_delete c | CClose_Unlock c =>
      Some c
  | _ => None
  end.

(** A goroutine inside the once of [Conn.Close], past [close(c.doneCh)]. *)
Definition in_once (p : pc) : option ConnPtr :=
  match p with
  | CClose_listenerLock c | CClose_delete c => Some c
  | _ => None
  end.

(** [Conn.Close] runs under the connection's lock, and inside the once the
    connection still has its listener. *)
Definition close_inv (m : Machine) : Prop :=
  heap_wf (st m) /\
  (forall t p c, threads m !! t = Some p -> holds_c p = Some c ->
                 c_lock m !! c = Some t) /\
  (forall t p c, threads m !! t = Some p -> in_once p = Some c ->
     exists conn, heap (st m) !! c = Some conn /\
                  listener conn = Some thisListener /\
                  c_doneOnce conn = true).

(** What [Accept] has returned: connections of the store, each to one
    caller, and not the one the loop is still offering. *)
Definition accept_inv (m : Machine) : Prop :=
  (forall t c, threads m !! t = Some (Accept_ret (Ok c)) ->
     c < length (heap (st m)) /\
     forall buf n, loop m <> Loop_acceptSend buf n c) /\
  (forall t t' c, threads m !! t = Some (Accept_ret (Ok c)) ->
                  threads m !! t' = Some (Accept_ret (Ok c)) -> t = t') /\
  (forall buf n c, loop m = Loop_acceptSend buf n c ->
                   c < length (heap (st m))).

(** An [Accept] that has failed has failed with [errClosedListener], on a
    listener whose [doneCh] is closed. *)
Definition accept_err_inv (m : Machine) : Prop :=
  forall t e, threads m !! t = Some (Accept_ret (Err e)) ->
    e = errClosedListener /\ l_doneCh (lsn (st m)) = true.

(** The socket is closed by [closeConn] only, inside the listener's once. *)
Definition sock_inv (m : Machine) : Prop :=
  (closed (pConn (lsn (st m))) = true -> l_doneOnce (lsn (st m)) = true) /\
  (forall t p, threads m !! t = Some p ->
     (exists timeout, p = LClose_closeConn timeout) \/
     (exists deadline recheck, p = LClose_select deadline recheck) ->
     l_doneOnce (lsn (st m)) = true).

(** Two peers are open and registered; the multiplexer is accepting. *)
Definition two_peers : State :=
  mkState (mkListener sock0 true [0; 1] false false
             (<[peerB := 1]> {[peerA := 0]}))
          [newConn peerA; newConn peerB].

Definition peerC : Addr := "10.0.0.3:4000".

(** An accepting multiplexer with no peer yet. *)
Definition accepting_empty : State :=
  mkState (mkListener sock0 true [] false false ∅) [].

(** A goroutine of [Listener.Close] past the once. *)
Definition past_once (p : pc) : bool :=
  match p with
  | LClose_closeConn _ | LClose_select _ _ | LClose_Unlock _ | LClose_ret _ =>
      true
  | _ => false
  end.

(** The once of [Listener.Close] has run only with [l.doneCh] closed, and a
    goroutine past it has run it or found it run. *)
Definition done_inv (m : Machine) : Prop :=
  (l_doneOnce (lsn (st m)) = true -> l_doneCh (lsn (st m)) = true) /\
  (forall t p, threads m !! t = Some p -> past_once p = true ->
     l_doneOnce (lsn (st m)) = true).

(** The first datagram of a peer, up to the send on [acceptCh]. *)
Definition first_datagram : list action :=
  [LoopRun; LoopDeliver hello peerA; LoopRun].

(** An [Accept] waits and takes the connection of the first datagram. *)
Definition accept_first : list action :=
  Spawn Accept_select :: first_datagram ++ [AcceptRv 0].

(** An [Accept] waits; [Listener.Close(0)] runs to its end in goroutine 1;
    the [Accept] then takes its [<-l.doneCh] case. *)
Definition close_unblocks : list action :=
  [Spawn Accept_select; Spawn (LClose_Lock 0); Run 1; Run 1; Run 1; Run 1].

(** Two goroutines call [Close] on the same connection; goroutine 0 gets
    its lock. *)
Definition two_closers : list action :=
  [Spawn (CClose_Lock 0); Spawn (CClose_Lock 0); Run 0].

(** A datagram for the open peer, with no [Read] waiting: the loop parks in
    its select. *)
Definition loop_parks : list action :=
  [LoopRun; LoopDeliver hello peerA; LoopRun; LoopRun; LoopPark].

(** The loop has reached its select with a datagram for the peer when the
    peer's [Close] closes [doneCh]. *)
Definition close_at_select : list action :=
  [LoopRun; LoopDeliver hello peerA; LoopRun; LoopRun;
   Spawn (CClose_Lock 0); Run 0; Run 0].

(** A [Read] arrives, parks, and a second passes. *)
Definition read_after_exit : list action :=
  [Spawn (Read_select 0 hello); Park 0; Advance 1000].

(** A [Read] with a buffer of three bytes parks before any datagram has
    come. *)
Definition reader_parks : list action :=
  [Spawn (Read_select 0 [Byte.x00; Byte.x00; Byte.x00]); Park 0; LoopRun].

End UDP.

(* ===================================================================== *)
(** * The payload is a transparent carrier                                *)
(* ===================================================================== *)

Module AppDataProofs.
Import AppData.

(** The slice [append_empty] returns denotes the bytes of its source, on an
    array of its own. *)
Lemma bytes_fresh (m : Mem) (b : list byte) :
  bytes (m ++ [b]) (mkSlice (length m) 0 (length b)) = b.
Proof.
  unfold bytes; cbn [arr off len].
  rewrite app_nth2 by lia.
  replace (length m - length m) with 0 by lia.
  cbn [nth skipn]. apply firstn_all.
Qed.

(** A store through a slice changes the array of that slice only. *)
Lemma bytes_store_other (m : Mem) (s s' : slice) (i : nat) (b : byte) :
  arr s <> arr s' -> bytes (store_byte m s i b) s' = bytes m s'.
Proof.
  intros Hne. unfold store_byte, bytes.
  destruct (i <? len s); [|reflexivity].
  f_equal. f_equal.
  rewrite !nth_lookup.
  rewrite list_lookup_alter_ne by congruence. reflexivity.
Qed.

(** Whatever the payload holds, [Marshal] returns it as one fragment. *)
Lemma Marshal_one_fragment (m : Mem) (a : applicationData) (fragmentLen : Z) :
  exists m2 raw,
    Marshal m a fragmentLen = (m2, ([raw], None)) /\
    bytes m2 raw = bytes m (data a).
Proof.
  exists (m ++ [bytes m (data a)]),
         (mkSlice (length m) 0 (length (bytes m (data a)))).
  split; [reflexivity | apply bytes_fresh].
Qed.

(** C8. For every byte sequence [d] (a slice on an array of the store),
    [Unmarshal] returns no error and stores the bytes of [d] on a newly
    allocated array, a copy that later stores through [d] do not reach; for
    every [fragmentLen] and every payload, [Marshal] returns no error and
    exactly one fragment, whose bytes are the stored ones; so [Marshal]
    after [Unmarshal] gives back the bytes of [d]. *)
Theorem C8_transparent_carrier
    (m : Mem) (a : applicationData) (d : slice) (fragmentLen : Z) :
  arr d < length m ->
  exists m1 a1,
    Unmarshal m a d = (m1, a1, None) /\
    bytes m1 (data a1) = bytes m d /\
    arr (data a1) = length m /\
    (forall i b, bytes (store_byte m1 d i b) (data a1) = bytes m d) /\
    (forall (m' : Mem) (a' : applicationData), exists m2 raw,
        Marshal m' a' fragmentLen = (m2, ([raw], None)) /\
        bytes m2 raw = bytes m' (data a')) /\
    exists m2 raw,
      Marshal m1 a1 fragmentLen = (m2, ([raw], None)) /\
      bytes m2 raw = bytes m d.
Proof.
  intros Hd.
  exists (m ++ [bytes m d]), (mkAD (mkSlice (length m) 0 (length (bytes m d)))).
  set (m1 := m ++ [bytes m d]).
  set (a1 := mkAD (mkSlice (length m) 0 (length (bytes m d)))).
  assert (H1 : bytes m1 (data a1) = bytes m d) by apply bytes_fresh.
  split; [reflexivity|]. split; [exact H1|]. split; [reflexivity|].
  split.
  { intros i b. rewrite bytes_store_other; [exact H1|].
    subst a1; cbn [data arr]. lia. }
  split.
  { intros m' a'. apply Marshal_one_fragment. }
  destruct (Marshal_one_fragment m1 a1 fragmentLen) as (m2 & raw & HM & Hb).
  exists m2, raw. split; [exact HM | congruence].
Qed.

(** An instance: the five bytes of "hello", held in the middle of an array. *)
Lemma C8_transparent_carrier_witness :
  let m := [[Byte.x00; Byte.x68; Byte.x65; Byte.x6c; Byte.x6c; Byte.x6f; Byte.x00]] in
  let d := mkSlice 0 1 5 in
  arr d < length m /\
  exists m1 a1,
    Unmarshal m (mkAD (mkSlice 0 0 0)) d = (m1, a1, None) /\
    bytes m1 (data a1) = bytes m d /\
    arr (data a1) = length m /\
    (forall i b, bytes (store_byte m1 d i b) (data a1) = bytes m d) /\
    (forall (m' : Mem) (a' : applicationData), exists m2 raw,
        Marshal m' a' 1200 = (m2, ([raw], None)) /\
        bytes m2 raw = bytes m' (data a')) /\
    exists m2 raw,
      Marshal m1 a1 1200 = (m2, ([raw], None)) /\
      bytes m2 raw = bytes m d.
Proof.
  split; [cbn; lia|].
  apply (C8_transparent_carrier _ (mkAD (mkSlice 0 0 0)) (mkSlice 0 1 5) 1200).
  cbn; lia.
Defined.

End AppDataProofs.

(* ===================================================================== *)
(** * Key-pair generation                                                 *)
(* ===================================================================== *)

Module CurveProofs.
Import Curve.

Section WithCrypto.

Variable rand_Read : nat -> result (list byte).
Variable ScalarBaseMult : list byte -> list byte.
Variable GenerateKey : ellipticCurve -> result (list byte * Z * Z).
Variable elliptic_Marshal : ellipticCurve -> Z -> Z -> list byte.

Local Abbreviation gen :=
  (generateKeypair rand_Read ScalarBaseMult GenerateKey elliptic_Marshal).

(** An identifier that is none of the four falls through the switch. *)
Lemma generateKeypair_unsupported (c : namedCurve) :
  ~ supported c -> gen c = Err errInvalidNamedCurve.
Proof.
  intros Hn. unfold generateKeypair.
  repeat match goal with
  | |- context [(c =? ?k)%Z] =>
      destruct (Z.eqb_spec c k) as [->|_];
      [exfalso; apply Hn; unfold supported; tauto|]
  end.
  reflexivity.
Qed.

(** An error returned for one of the four is the random source's. *)
Lemma generateKeypair_error_origin (c : namedCurve) (e : error) :
  supported c -> gen c = Err e ->
  rand_Read 32 = Err e \/ exists crv, GenerateKey crv = Err e.
Proof.
  intros Hs. unfold generateKeypair.
  destruct Hs as [-> | [-> | [-> | ->]]]; cbn.
  - destruct (rand_Read 32); [discriminate|]. intros [= ->]. now left.
  - destruct (GenerateKey P256) as [[[? ?] ?]|e'] eqn:E; [discriminate|].
    intros [= ->]. right. now exists P256.
  - destruct (GenerateKey P384) as [[[? ?] ?]|e'] eqn:E; [discriminate|].
    intros [= ->]. right. now exists P384.
  - destruct (GenerateKey P521) as [[[? ?] ?]|e'] eqn:E; [discriminate|].
    intros [= ->]. right. now exists P521.
Qed.

(** With a random source that works, each of the four gives a key pair. *)
Lemma generateKeypair_supported (c : namedCurve) :
  supported c ->
  (exists tmp, rand_Read 32 = Ok tmp) ->
  (forall crv, exists k, GenerateKey crv = Ok k) ->
  exists kp, gen c = Ok kp.
Proof.
  intros Hs [tmp Ht] Hg. unfold generateKeypair.
  destruct Hs as [-> | [-> | [-> | ->]]]; cbn.
  - rewrite Ht. eauto.
  - destruct (Hg P256) as [[[? ?] ?] ->]. eauto.
  - destruct (Hg P384) as [[[? ?] ?] ->]. eauto.
  - destruct (Hg P521) as [[[? ?] ?] ->]. eauto.
Qed.

(** The [curve] field of a key pair that is returned: the switch writes
    [namedCurveX25519] in its first case and [namedCurveP256] in the three
    others. *)
Lemma generateKeypair_curve (c : namedCurve) (kp : namedCurveKeypair) :
  gen c = Ok kp ->
  curve kp = if (c =? namedCurveX25519)%Z then namedCurveX25519
             else namedCurveP256.
Proof.
  unfold generateKeypair.
  destruct (c =? namedCurveX25519)%Z.
  { destruct (rand_Read 32); [|discriminate]. now intros [= <-]. }
  destruct (c =? namedCurveP256)%Z.
  { destruct (GenerateKey P256) as [[[? ?] ?]|]; [|discriminate].
    now intros [= <-]. }
  destruct (c =? namedCurveP384)%Z.
  { destruct (GenerateKey P384) as [[[? ?] ?]|]; [|discriminate].
    now intros [= <-]. }
  destruct (c =? namedCurveP521)%Z.
  { destruct (GenerateKey P521) as [[[? ?] ?]|]; [|discriminate].
    now intros [= <-]. }
  discriminate.
Qed.

(** The case of X25519: the outcome of [rand.Read] decides. *)
Lemma generateKeypair_X25519 :
  (forall tmp, rand_Read 32 = Ok tmp -> exists kp, gen namedCurveX25519 = Ok kp) /\
  (forall e, rand_Read 32 = Err e -> gen namedCurveX25519 = Err e).
Proof.
  unfold generateKeypair. cbn [Z.eqb namedCurveX25519 Pos.eqb].
  split.
  - intros tmp ->. eauto.
  - intros e ->. reflexivity.
Qed.

(** The three cases of [crypto/elliptic]: the outcome of
    [elliptic.GenerateKey] on the curve of the identifier decides. *)
Lemma generateKeypair_P (c : namedCurve) (crv : ellipticCurve) :
  curve_of c = Some crv ->
  (forall k, GenerateKey crv = Ok k -> exists kp, gen c = Ok kp) /\
  (forall e, GenerateKey crv = Err e -> gen c = Err e).
Proof.
  unfold curve_of, generateKeypair.
  destruct (Z.eqb_spec c namedCurveP256) as [->|H1].
  { intros [= <-]. cbn. split.
    - intros [[pk x] y] ->. eauto.
    - intros e ->. reflexivity. }
  destruct (Z.eqb_spec c namedCurveP384) as [->|H2].
  { intros [= <-]. cbn. split.
    - intros [[pk x] y] ->. eauto.
    - intros e ->. reflexivity. }
  destruct (Z.eqb_spec c namedCurveP521) as [->|H3].
  { intros [= <-]. cbn. split.
    - intros [[pk x] y] ->. eauto.
    - intros e ->. reflexivity. }
  discriminate.
Qed.

End WithCrypto.

(** The four identifiers are X25519 and the three that have a curve of
    [crypto/elliptic]. *)
Lemma supported_cases (c : namedCurve) :
  supported c <-> c = namedCurveX25519 \/ exists crv, curve_of c = Some crv.
Proof.
  unfold supported, curve_of. split.
  - intros [-> | [-> | [-> | ->]]]; [now left| right; cbn; eauto ..].
  - intros [H | [crv H]]; [now left|]. right.
    destruct (Z.eqb_spec c namedCurveP256) as [->|H1]; [now left|].
    destruct (Z.eqb_spec c namedCurveP384) as [->|H2]; [right; now left|].
    destruct (Z.eqb_spec c namedCurveP521) as [->|H3]; [right; now right|].
    discriminate H.
Qed.

(** C7, as the code has it. Each of the four identifiers has its random
    source: [rand.Read] for X25519, [elliptic.GenerateKey] on the curve of
    the identifier for P-256, P-384 and P-521. When that source succeeds
    [generateKeypair] returns a key pair, and when it reports an error
    [generateKeypair] returns that error; so an error returned for one of
    the four is an error of the random source. For every other identifier
    it returns [errInvalidNamedCurve]. *)
Theorem C7_generateKeypair_outcomes
    (rand_Read : nat -> result (list byte))
    (ScalarBaseMult : list byte -> list byte)
    (GenerateKey : ellipticCurve -> result (list byte * Z * Z))
    (elliptic_Marshal : ellipticCurve -> Z -> Z -> list byte)
    (c : namedCurve) :
  (supported c ->
   (exists tmp, rand_Read 32 = Ok tmp) ->
   (forall crv, exists k, GenerateKey crv = Ok k) ->
   exists kp,
     generateKeypair rand_Read ScalarBaseMult GenerateKey elliptic_Marshal c
     = Ok kp) /\
  (supported c ->
   forall e,
     generateKeypair rand_Read ScalarBaseMult GenerateKey elliptic_Marshal c
     = Err e ->
     rand_Read 32 = Err e \/ exists crv, GenerateKey crv = Err e) /\
  (~ supported c ->
   generateKeypair rand_Read ScalarBaseMult GenerateKey elliptic_Marshal c
   = Err errInvalidNamedCurve) /\
  (supported c <-> c = namedCurveX25519 \/ exists crv, curve_of c = Some crv) /\
  (c = namedCurveX25519 ->
   (forall tmp, rand_Read 32 = Ok tmp ->
      exists kp,
        generateKeypair rand_Read ScalarBaseMult GenerateKey elliptic_Marshal c
        = Ok kp) /\
   (forall e, rand_Read 32 = Err e ->
      generateKeypair rand_Read ScalarBaseMult GenerateKey elliptic_Marshal c
      = Err e)) /\
  (forall crv, curve_of c = Some crv ->
   (forall k, GenerateKey crv = Ok k ->
      exists kp,
        generateKeypair rand_Read ScalarBaseMult GenerateKey elliptic_Marshal c
        = Ok kp) /\
   (forall e, GenerateKey crv = Err e ->
      generateKeypair rand_Read ScalarBaseMult GenerateKey elliptic_Marshal c
      = Err e)).
Proof.
  split; [|split; [|split; [|split; [|split]]]].
  - apply generateKeypair_supported.
  - intros Hs e. now apply generateKeypair_error_origin.
  - apply generateKeypair_unsupported.
  - apply supported_cases.
  - intros ->. apply generateKeypair_X25519.
  - intros crv. apply generateKeypair_P.
Qed.

(** The parts at work: P-256 with a working source; X25519 with a failing
    [rand.Read] and P-384 with a failing [elliptic.GenerateKey], each
    returning the error of its source; and the identifier 7. *)
Lemma C7_generateKeypair_outcomes_witness :
  (exists kp,
     generateKeypair rand_ok sbm_stub genkey_ok marshal_stub namedCurveP256
     = Ok kp) /\
  (rand_fails 32 = Err (errEntropy "entropy source unavailable") \/
   exists crv, genkey_ok crv = Err (errEntropy "entropy source unavailable")) /\
  generateKeypair rand_ok sbm_stub genkey_ok marshal_stub 7%Z
  = Err errInvalidNamedCurve /\
  generateKeypair rand_fails sbm_stub genkey_ok marshal_stub namedCurveX25519
  = Err (errEntropy "entropy source unavailable") /\
  generateKeypair rand_ok sbm_stub genkey_fails marshal_stub namedCurveP384
  = Err (errEntropy "entropy source unavailable") /\
  (exists kp,
     generateKeypair rand_fails sbm_stub genkey_ok marshal_stub namedCurveP521
     = Ok kp).
Proof.
  split; [|split; [|split; [|split; [|split]]]].
  - apply (proj1 (C7_generateKeypair_outcomes rand_ok sbm_stub genkey_ok
                    marshal_stub namedCurveP256)).
    + right; left; reflexivity.
    + exists (repeat Byte.x2a 32); reflexivity.
    + intros crv; eexists; reflexivity.
  - apply (proj1 (proj2 (C7_generateKeypair_outcomes rand_fails sbm_stub
                           genkey_ok marshal_stub namedCurveX25519))).
    + left; reflexivity.
    + reflexivity.
  - apply (proj1 (proj2 (proj2 (C7_generateKeypair_outcomes rand_ok sbm_stub
                                  genkey_ok marshal_stub 7%Z)))).
    unfold supported, namedCurveX25519, namedCurveP256, namedCurveP384,
      namedCurveP521. lia.
  - apply (proj1 (proj2 (proj2 (proj2 (proj2
             (C7_generateKeypair_outcomes rand_fails sbm_stub genkey_ok
                marshal_stub namedCurveX25519))))));
      reflexivity.
  - apply (proj2 (proj2 (proj2 (proj2 (proj2
             (C7_generateKeypair_outcomes rand_ok sbm_stub genkey_fails
                marshal_stub namedCurveP384))))) P384);
      reflexivity.
  - apply (proj1 (proj2 (proj2 (proj2 (proj2 (proj2
             (C7_generateKeypair_outcomes rand_fails sbm_stub genkey_ok
                marshal_stub namedCurveP521))))) P521 eq_refl)
             ([Byte.x01; Byte.x02], 3%Z, 4%Z)).
    reflexivity.
Defined.

(** C7 as stated fails: X25519 and P-256 are among the four, and when the
    random source reports an error ([rand.Read] for the first,
    [elliptic.GenerateKey] for the second) the function returns that error,
    not a key pair. *)
Lemma C7_counterexample :
  supported namedCurveX25519 /\
  generateKeypair rand_fails sbm_stub genkey_ok marshal_stub namedCurveX25519
  = Err (errEntropy "entropy source unavailable") /\
  (~ exists kp,
      generateKeypair rand_fails sbm_stub genkey_ok marshal_stub
        namedCurveX25519 = Ok kp) /\
  supported namedCurveP256 /\
  generateKeypair rand_ok sbm_stub genkey_fails marshal_stub namedCurveP256
  = Err (errEntropy "entropy source unavailable") /\
  (~ exists kp,
      generateKeypair rand_ok sbm_stub genkey_fails marshal_stub
        namedCurveP256 = Ok kp).
Proof.
  split; [left; reflexivity|]. split; [reflexivity|].
  split; [intros [kp H]; discriminate H|].
  split; [right; left; reflexivity|]. split; [reflexivity|].
  intros [kp H]. discriminate H.
Qed.

(** C9 on the code. A key pair returned for X25519 or P-256 carries the
    identifier asked for; one returned for P-384 or P-521 carries
    [namedCurveP256], which is not the identifier asked for. *)
Theorem C9_curve_field_of_keypair
    (rand_Read : nat -> result (list byte))
    (ScalarBaseMult : list byte -> list byte)
    (GenerateKey : ellipticCurve -> result (list byte * Z * Z))
    (elliptic_Marshal : ellipticCurve -> Z -> Z -> list byte)
    (c : namedCurve) (kp : namedCurveKeypair) :
  generateKeypair rand_Read ScalarBaseMult GenerateKey elliptic_Marshal c
  = Ok kp ->
  (c = namedCurveX25519 \/ c = namedCurveP256 -> curve kp = c) /\
  (c = namedCurveP384 \/ c = namedCurveP521 ->
   curve kp = namedCurveP256 /\ curve kp <> c).
Proof.
  intros H. apply generateKeypair_curve in H. split.
  - intros [-> | ->]; exact H.
  - intros [-> | ->]; cbn in H; rewrite H; split; try reflexivity;
      unfold namedCurveP256, namedCurveP384, namedCurveP521; lia.
Qed.

(** The failing input: P-384 with a working random source. *)
Lemma C9_curve_field_of_keypair_witness :
  let kp := mkKeypair namedCurveP256 (marshal_stub P384 3 4)
              [Byte.x01; Byte.x02] in
  generateKeypair rand_ok sbm_stub genkey_ok marshal_stub namedCurveP384
  = Ok kp /\
  curve kp = namedCurveP256 /\ curve kp <> namedCurveP384.
Proof.
  split; [reflexivity|].
  apply (proj2 (C9_curve_field_of_keypair rand_ok sbm_stub genkey_ok
                  marshal_stub namedCurveP384 _ eq_refl)).
  left; reflexivity.
Defined.

End CurveProofs.

(* ===================================================================== *)
(** * The multiplexer, one call at a time                                 *)
(* ===================================================================== *)

Module UDPProofs.
Import UDP.

(** ** [getConn] *)

(** An address that is in the registry gets the connection registered for
    it; nothing is made and nothing is sent on [acceptCh]. *)
Lemma getConn_seen (s : State) (raddr : Addr) (conn : ConnPtr) :
  conns (lsn s) !! raddr = Some conn ->
  getConn s raddr = (s, Ok conn).
Proof. intros H. unfold getConn, getConn_lookup. now rewrite H. Qed.

(** An address that is not in the registry of a multiplexer that is
    accepting gets a new connection, which is registered under the address
    and sent on [acceptCh]. *)
Lemma getConn_new (s : State) (raddr : Addr) :
  conns (lsn s) !! raddr = None ->
  accepting (lsn s) = true ->
  exists s',
    getConn s raddr = (s', Ok (length (heap s))) /\
    heap s' = heap s ++ [newConn raddr] /\
    conns (lsn s') = <[raddr := length (heap s)]> (conns (lsn s)) /\
    acceptCh (lsn s') = acceptCh (lsn s) ++ [length (heap s)].
Proof.
  intros Hn Ha. unfold getConn, getConn_lookup. rewrite Hn, Ha. cbn.
  eexists. split; [reflexivity|]. cbn. auto.
Qed.

(** An address that is not in the registry of a multiplexer that is not
    accepting gets [errClosedListener]. *)
Lemma getConn_refused (s : State) (raddr : Addr) :
  conns (lsn s) !! raddr = None ->
  accepting (lsn s) = false ->
  getConn s raddr = (s, Err errClosedListener).
Proof. intros Hn Ha. unfold getConn, getConn_lookup. now rewrite Hn, Ha. Qed.

(** ** The loop of [closeConn] returns *)

Lemma closeConn_loop_total (l : Listener) (timeout fuel elapsed : nat) :
  fuel <> 0 ->
  timeout <= elapsed + fuel * closeRecheckDuration ->
  exists r, closeConn_loop fuel l elapsed timeout = Some r.
Proof.
  revert elapsed. induction fuel as [|fuel IH]; intros elapsed Hf Ht.
  - congruence.
  - cbn [closeConn_loop].
    destruct (Nat.leb_spec timeout (elapsed + closeRecheckDuration)) as [Hle|Hgt].
    + destruct (UDPConn_Close (pConn l)); eauto.
    + destruct (size (conns l) =? 0).
      * destruct (UDPConn_Close (pConn l)); eauto.
      * apply IH; unfold closeRecheckDuration in *; [|lia].
        intros ->. lia.
Qed.

Lemma closeConn_fuel (timeout : nat) :
  timeout <= 0 + S (timeout / closeRecheckDuration) * closeRecheckDuration.
Proof.
  unfold closeRecheckDuration.
  pose proof (Nat.div_mod_eq timeout 100) as H.
  pose proof (Nat.mod_upper_bound timeout 100). lia.
Qed.

Lemma closeConn_total (l : Listener) (timeout : nat) :
  exists r, closeConn l timeout = Some r.
Proof.
  unfold closeConn. destruct (size (conns l) =? 0).
  - destruct (UDPConn_Close (pConn l)); eauto.
  - apply closeConn_loop_total; [lia | apply closeConn_fuel].
Qed.

(** With peers in the registry, the loop ends by the timeout timer. *)
Lemma closeConn_loop_nonempty (l : Listener) (timeout fuel elapsed : nat) :
  size (conns l) <> 0 ->
  fuel <> 0 ->
  timeout <= elapsed + fuel * closeRecheckDuration ->
  closeConn_loop fuel l elapsed timeout =
  Some (set_pConn (UDPConn_Close (pConn l)).1 l,
        (UDPConn_Close (pConn l)).2, Nat.max elapsed timeout).
Proof.
  intros Hne. revert elapsed.
  induction fuel as [|fuel IH]; intros elapsed Hf Ht; [congruence|].
  cbn [closeConn_loop].
  destruct (Nat.leb_spec timeout (elapsed + closeRecheckDuration)) as [Hle|Hgt].
  - destruct (UDPConn_Close (pConn l)); reflexivity.
  - destruct (Nat.eqb_spec (size (conns l)) 0) as [H0|_]; [contradiction|].
    rewrite IH.
    + do 2 f_equal. unfold closeRecheckDuration in *. lia.
    + intros ->. unfold closeRecheckDuration in *. lia.
    + unfold closeRecheckDuration in *. lia.
Qed.

Lemma closeConn_nonempty (l : Listener) (timeout : nat) :
  size (conns l) <> 0 ->
  closeConn l timeout =
  Some (set_pConn (UDPConn_Close (pConn l)).1 l,
        (UDPConn_Close (pConn l)).2, timeout).
Proof.
  intros Hne. unfold closeConn.
  destruct (Nat.eqb_spec (size (conns l)) 0) as [H0|_]; [contradiction|].
  rewrite closeConn_loop_nonempty by (auto using closeConn_fuel).
  now rewrite Nat.max_0_l.
Qed.

Lemma closeConn_empty (l : Listener) (timeout : nat) :
  conns l = ∅ ->
  closeConn l timeout =
  Some (set_pConn (UDPConn_Close (pConn l)).1 l,
        (UDPConn_Close (pConn l)).2, 0).
Proof.
  intros He. unfold closeConn. rewrite He, map_size_empty. cbn.
  destruct (UDPConn_Close (pConn l)); reflexivity.
Qed.

Lemma UDPConn_Close_closed (u : UDPConn) : closed (UDPConn_Close u).1 = true.
Proof. unfold UDPConn_Close. destruct (closed u) eqn:E; cbn; auto. Qed.

(** [Listener.Close] returns, whatever the registry holds. *)
Lemma Listener_Close_total (s : State) (timeout : nat) :
  l_doneOnce (lsn s) = l_doneCh (lsn s) ->
  exists r, Listener_Close s timeout = Some r.
Proof.
  intros Hwf. unfold Listener_Close.
  destruct (l_doneOnce (lsn s)); [eauto|]. rewrite <- Hwf.
  destruct (closeConn_total (set_done (lsn s)) timeout) as [[[l' e] w] ->].
  cbn. eauto.
Qed.

(** After a first [Listener.Close] the once is marked. *)
Lemma Listener_Close_marks (s s1 : State) (timeout w : nat) (err : option error) :
  l_doneOnce (lsn s) = false ->
  Listener_Close s timeout = Some (s1, err, w) ->
  l_doneOnce (lsn s1) = true /\ l_doneCh (lsn s1) = true /\
  closed (pConn (lsn s1)) = true.
Proof.
  intros Hn. unfold Listener_Close. rewrite Hn.
  destruct (l_doneCh (lsn s)); [discriminate|].
  unfold closeConn.
  destruct (size (conns (set_done (lsn s))) =? 0).
  - pose proof (UDPConn_Close_closed (pConn (set_done (lsn s)))) as Hc.
    destruct (UDPConn_Close (pConn (set_done (lsn s)))); cbn.
    intros [= <- <- <-]; cbn. auto.
  - remember (S (timeout / closeRecheckDuration)) as fuel eqn:Hf. clear Hf.
    generalize 0 as elapsed.
    induction fuel as [|fuel IH]; intros elapsed; [discriminate|].
    cbn [closeConn_loop].
    pose proof (UDPConn_Close_closed (pConn (set_done (lsn s)))) as Hc.
    destruct (timeout <=? elapsed + closeRecheckDuration).
    { destruct (UDPConn_Close (pConn (set_done (lsn s)))); cbn.
      intros [= <- <- <-]; cbn. auto. }
    destruct (size (conns (set_done (lsn s))) =? 0).
    { destruct (UDPConn_Close (pConn (set_done (lsn s)))); cbn.
      intros [= <- <- <-]; cbn. auto. }
    apply IH.
Qed.

(** C6. A first [Listener.Close] returns with the socket closed; when the
    registry is empty it has not waited and returns what closing the socket
    returned; a second [Close], with any timeout, returns no error, at once,
    and changes nothing. *)
Theorem C6_Listener_Close_idempotent (s : State) (timeout timeout2 : nat) :
  l_doneOnce (lsn s) = false ->
  l_doneCh (lsn s) = false ->
  exists s1 err waited,
    Listener_Close s timeout = Some (s1, err, waited) /\
    closed (pConn (lsn s1)) = true /\
    (conns (lsn s) = ∅ ->
     waited = 0 /\ (pConn (lsn s1), err) = UDPConn_Close (pConn (lsn s))) /\
    Listener_Close s1 timeout2 = Some (s1, None, 0).
Proof.
  intros Ho Hd.
  destruct (Listener_Close_total s timeout) as [[[s1 err] w] H1]; [congruence|].
  exists s1, err, w. split; [exact H1|].
  destruct (Listener_Close_marks _ _ _ _ _ Ho H1) as (Hm & _ & Hc).
  split; [exact Hc|]. split.
  - intros He. unfold Listener_Close in H1. rewrite Ho, Hd in H1.
    rewrite closeConn_empty in H1 by exact He. cbn in H1.
    injection H1 as <- <- <-. split; [reflexivity|]. cbn.
    now destruct (UDPConn_Close (pConn (lsn s))).
  - unfold Listener_Close. now rewrite Hm.
Qed.

(** On the multiplexer as [Listen] leaves it. *)
Lemma C6_Listener_Close_idempotent_witness :
  exists s1 err waited,
    Listener_Close listening 5000 = Some (s1, err, waited) /\
    closed (pConn (lsn s1)) = true /\
    (conns (lsn listening) = ∅ ->
     waited = 0 /\
     (pConn (lsn s1), err) = UDPConn_Close (pConn (lsn listening))) /\
    Listener_Close s1 100 = Some (s1, None, 0).
Proof.
  apply (C6_Listener_Close_idempotent listening 5000 100); reflexivity.
Defined.

(** ** [Conn.Close] and [Conn.Write] *)

(** The first [Close] on an open connection, computed. *)
Lemma Conn_Close_open (s : State) (c : ConnPtr) (conn : Conn) :
  heap s !! c = Some conn ->
  c_doneOnce conn = false ->
  c_doneCh conn = false ->
  listener conn = Some thisListener ->
  Conn_Close s c =
  Some (mkState (set_conns (delete (rAddr conn) (conns (lsn s))) (lsn s))
                (<[c := mkConn None (rAddr conn) true true]> (heap s)), None).
Proof.
  intros Hc Ho Hd Hl.
  assert (Hlt : c < length (heap s)) by (eapply lookup_lt_Some; eauto).
  unfold Conn_Close. rewrite Hc. cbn. rewrite Ho, Hd, Hl.
  unfold close_doneCh, unregister. cbn.
  rewrite (list_lookup_insert_eq (heap s)) by exact Hlt. cbn.
  now rewrite list_insert_insert_eq.
Qed.

(** C4. On a connection that is open (as [newConn] makes it), the first
    [Close] returns no error, closes [doneCh], removes the entry of the
    connection's address from the registry and sets [listener] to nil, and
    touches nothing else; a [Close] on a connection whose once has run, the
    second one in particular, returns no error and leaves the state as it
    is. *)
Theorem C4_Conn_Close_idempotent (s : State) (c : ConnPtr) (conn : Conn) :
  heap s !! c = Some conn ->
  c_doneOnce conn = false ->
  c_doneCh conn = false ->
  listener conn = Some thisListener ->
  exists s1,
    Conn_Close s c = Some (s1, None) /\
    heap s1 = <[c := mkConn None (rAddr conn) true true]> (heap s) /\
    lsn s1 = set_conns (delete (rAddr conn) (conns (lsn s))) (lsn s) /\
    Conn_Close s1 c = Some (s1, None) /\
    (forall s2 conn2,
        heap s2 !! c = Some conn2 -> c_doneOnce conn2 = true ->
        Conn_Close s2 c = Some (s2, None)).
Proof.
  intros Hc Ho Hd Hl.
  assert (Hlt : c < length (heap s)) by (eapply lookup_lt_Some; eauto).
  assert (Hlater : forall s2 conn2,
             heap s2 !! c = Some conn2 -> c_doneOnce conn2 = true ->
             Conn_Close s2 c = Some (s2, None)).
  { intros s2 conn2 H2 Ho2. unfold Conn_Close. rewrite H2. cbn.
    now rewrite Ho2. }
  eexists. split; [apply (Conn_Close_open s c conn); assumption|].
  split; [reflexivity|]. split; [reflexivity|]. split; [|exact Hlater].
  eapply Hlater; cbn [heap].
  - apply list_lookup_insert_eq. exact Hlt.
  - reflexivity.
Qed.

(** On the multiplexer with one open peer. *)
Lemma C4_Conn_Close_idempotent_witness :
  exists s1,
    Conn_Close one_peer 0 = Some (s1, None) /\
    heap s1 = <[0 := mkConn None peerA true true]> (heap one_peer) /\
    lsn s1 = set_conns (delete peerA (conns (lsn one_peer))) (lsn one_peer) /\
    Conn_Close s1 0 = Some (s1, None) /\
    (forall s2 conn2,
        heap s2 !! 0 = Some conn2 -> c_doneOnce conn2 = true ->
        Conn_Close s2 0 = Some (s2, None)).
Proof.
  apply (C4_Conn_Close_idempotent one_peer 0 (newConn peerA)); reflexivity.
Defined.

(** [Write] on a connection whose [listener] is nil. *)
Lemma Conn_Write_nil (s : State) (c : ConnPtr) (conn : Conn) (p : list byte) :
  heap s !! c = Some conn -> listener conn = None ->
  Conn_Write s c p = Some (s, (0, Some EOF)).
Proof. intros Hc Hl. unfold Conn_Write. rewrite Hc. cbn. now rewrite Hl. Qed.

(** [Write] on a connection that has its [listener]: the call is
    [WriteTo] on the socket, to the connection's address, and only the
    socket changes. *)
Lemma Conn_Write_open (s : State) (c : ConnPtr) (conn : Conn) (p : list byte) :
  heap s !! c = Some conn -> listener conn = Some thisListener ->
  Conn_Write s c p =
  Some (mkState (set_pConn (WriteTo (pConn (lsn s)) p (rAddr conn)).1 (lsn s))
                (heap s),
        (WriteTo (pConn (lsn s)) p (rAddr conn)).2).
Proof.
  intros Hc Hl. unfold Conn_Write. rewrite Hc. cbn. rewrite Hl.
  now destruct (WriteTo (pConn (lsn s)) p (rAddr conn)).
Qed.

End UDPProofs.

(* ===================================================================== *)
(** * The multiplexer and its goroutines                                  *)
(* ===================================================================== *)

Module MachineProofs.
Import UDP UDPProofs.

(** What every step keeps, every schedule keeps. *)
Lemma run_invariant (I : Machine -> Prop) :
  (forall m a m', I m -> exec m a = Some m' -> I m') ->
  forall sched m m', I m -> run m sched = Some m' -> I m'.
Proof.
  intros Hstep. induction sched as [|a sched IH]; intros m m' Hm Hr.
  - cbn in Hr. now injection Hr as <-.
  - cbn in Hr. destruct (exec m a) as [m1|] eqn:E; [|discriminate].
    cbn in Hr. eapply IH; [|exact Hr]. eapply Hstep; eauto.
Qed.

(** The loop's buffer is never unfolded in the proofs. *)
Local Opaque receiveMTU.

(** Case analysis on a step: the action, then the control point. *)
Ltac exec_cases H :=
  match type of H with
  | exec ?m ?a = Some _ =>
      destruct a; cbn [exec] in H;
      try match type of H with
      | (threads m !! ?t ≫= _) = Some _ =>
          let p := fresh "p" in
          let Ht := fresh "Ht" in
          destruct (threads m !! t) as [p|] eqn:Ht; [|discriminate H];
          cbn [mbind option_bind] in H; destruct p
      end;
      unfold exec_LoopRun, exec_LoopDeliver, exec_LoopFail, exec_LoopDone,
        exec_LoopPark,
        exec_Run, exec_Timer, exec_Recheck, exec_Done, exec_Park,
        exec_Handoff, exec_SizeRv, exec_AcceptRv, close_socket in H;
      repeat first
        [ discriminate
        | progress simplify_eq/=
        | case_match
        | match goal with
          | H' : context [(?o ≫= _)] |- _ => destruct o eqn:?
          end ]
  end.

(** ** Mutual exclusion on the listener's lock *)

Lemma wake_holds_l c p : holds_l (wake c p) = holds_l p.
Proof. destruct p; cbn; try reflexivity. now destruct (_ =? _). Qed.

Lemma is_entry_holds_l p : is_entry p = true -> holds_l p = false.
Proof. now destruct p. Qed.

(** A control point found in the thread list after a step is the one the
    step wrote, or was there before. *)
Ltac lookups :=
  repeat match goal with
  | H : <[_:=_]> _ !! _ = Some _ |- _ =>
      apply list_lookup_insert_Some in H;
      destruct H as [(-> & <- & ?)|(? & H)]
  | H : (_ ++ [_]) !! _ = Some _ |- _ =>
      apply lookup_app_Some in H; destruct H as [H|(? & H)];
      [|apply list_lookup_singleton_Some in H; destruct H as [? <-]]
  | H : (_ <$> _) !! _ = Some _ |- _ =>
      rewrite list_lookup_fmap in H; apply fmap_Some in H;
      destruct H as (? & H & ->)
  end.

Lemma wake_loop_holds_l c lp : loop_holds_l (wake_loop c lp) = loop_holds_l lp.
Proof. destruct lp; cbn; try reflexivity. now destruct (_ =? _). Qed.

(** Add a fact to the context unless it is there. *)
Ltac learn pf :=
  let T := type of pf in
  lazymatch goal with
  | _ : T |- _ => fail
  | _ => pose proof pf
  end.

(** Every step keeps mutual exclusion: a lock is taken only when free, and
    released only by its holder. *)
Lemma lock_inv_step (m m' : Machine) (a : action) :
  lock_inv m -> exec m a = Some m' -> lock_inv m'.
Proof.
  intros [HL HT] H. exec_cases H.
  all: split; cbn; rewrite ?wake_loop_holds_l;
    [ | intros t' q Hq Hh; lookups; try discriminate;
        rewrite ?wake_holds_l in Hh;
        try (rewrite is_entry_holds_l in Hh by done; discriminate) ];
    try match goal with
    | Hl : loop _ = _ |- _ => rewrite Hl in HL; cbn in HL
    end;
    repeat match goal with
    | Hx : threads _ !! ?x = Some ?y, Hy : holds_l ?y = true |- _ =>
        learn (HT x y Hx Hy)
    | Hx : threads _ !! ?x = Some ?y |- _ =>
        learn (HT x y Hx eq_refl)
    end;
    try (intros ?); try (specialize (HL eq_refl));
    try match goal with Hh : loop_holds_l _ = true |- _ => specialize (HL Hh) end;
    try done; try congruence.
Qed.

(** ** The registry during [closeConn] *)

Lemma in_closeConn_holds p since timeout :
  in_closeConn p since timeout -> holds_l p = true.
Proof. intros [->|(? & ? & -> & _)]; reflexivity. Qed.

Lemma WriteTo_closed u p a u' r :
  WriteTo u p a = (u', r) -> closed u' = closed u.
Proof.
  unfold WriteTo. destruct (closed u) eqn:E; [now intros [= <- <-]|].
  destruct (refuses u (sent u) p a); intros [= <- <-]; cbn; auto.
Qed.

Lemma UDPConn_Close_closed' u u' e :
  UDPConn_Close u = (u', e) -> closed u' = true.
Proof.
  unfold UDPConn_Close. destruct (closed u) eqn:E; intros [= <- <-]; cbn; auto.
Qed.


Lemma getConn_lookup_pConn s raddr s' r b :
  getConn_lookup s raddr = (s', r, b) -> pConn (lsn s') = pConn (lsn s).
Proof.
  unfold getConn_lookup. repeat case_match; intros; simplify_eq; reflexivity.
Qed.

Ltac bool_facts :=
  repeat match goal with
  | H : (_ <=? _) = true |- _ => apply Nat.leb_le in H
  | H : (_ <=? _) = false |- _ => apply Nat.leb_gt in H
  | H : (_ =? _) = true |- _ => apply Nat.eqb_eq in H
  | H : (_ =? _) = false |- _ => apply Nat.eqb_neq in H
  | H : WriteTo _ _ _ = _ |- _ => apply WriteTo_closed in H
  | H : UDPConn_Close _ = _ |- _ => apply UDPConn_Close_closed' in H
  | H : getConn_lookup _ _ = _ |- _ => apply getConn_lookup_pConn in H
  end.

Lemma wake_LClose c p : holds_l p = true -> wake c p = p.
Proof. now destruct p. Qed.

(** While the closer is inside [closeConn] it owns the lock, so no step of
    another goroutine changes the registry or closes the socket, and its own
    rechecks find the registry as it was; it leaves only by closing the
    socket, on the timeout timer. *)
Lemma grace_inv_step t since timeout R m a m' :
  size R <> 0 ->
  grace_inv t since timeout R m -> exec m a = Some m' ->
  grace_inv t since timeout R m'.
Proof.
  intros HR (Hlock & Hnow & Hph) H.
  split; [eapply lock_inv_step; eauto|].
  destruct Hlock as [HL HT].
  destruct Hph as [(Hop & Hc & p & Hp & Hin)|(Hcl & Hb)].
  - pose proof (HT t p Hp (in_closeConn_holds _ _ _ Hin)) as Hlk.
    pose proof (lookup_lt_Some _ _ _ Hp) as Hlt.
    pose proof (in_closeConn_holds _ _ _ Hin) as Hh.
    exec_cases H.
    all: try congruence.
    all: try (specialize (HL eq_refl); congruence).
    all: repeat match goal with
         | Hx : threads _ !! ?x = Some ?y |- _ =>
             learn (HT x y Hx eq_refl)
         end.
    all: try match goal with
         | Hx : l_lock ?mm = Some (Caller ?x),
           Hy : l_lock ?mm = Some (Caller ?y) |- _ =>
             assert (x = y) by congruence; subst
         end.
    all: try match goal with
         | Hx : threads _ !! ?x = Some _ |- context [<[?x := _]> _] =>
             destruct (decide (x = t)) as [->|Hne]
         end.
    all: repeat match goal with
         | Hx : threads ?mm !! ?x = Some _, Hy : threads ?mm !! ?x = Some _ |- _ =>
             rewrite Hx in Hy; injection Hy as <-
         end.
    all: bool_facts.
    all: try (destruct Hin as [Hin|(? & ? & Hin & ?)]; discriminate Hin).
    all: cbn; (split; [lia|]).
    all: try contradiction.
    all: try (right; split; [congruence | destruct Hin as [Hin|(dl & rc & Hin & Hdl)]; simplify_eq; lia]).
    all: left; (split; [congruence|]); (split; [reflexivity|]).
    all: rewrite ?list_lookup_insert_ne by congruence;
         rewrite ?list_lookup_fmap;
         rewrite ?(lookup_app_l _ _ _ Hlt);
         rewrite ?list_lookup_insert_eq by done;
         rewrite ?Hp; cbn; rewrite ?wake_LClose by done.
    all: eexists; (split; [reflexivity|]); try exact Hin.
    all: destruct Hin as [Hin|(dl & rc & Hin & Hdl)]; simplify_eq;
         right; eexists _, _; (split; [reflexivity|lia]).
  - exec_cases H.
    all: bool_facts.
    all: cbn; (split; [lia|]); right; (split; [congruence|lia]).
Qed.

(** ** Parked selects and closed connections *)

Lemma getConn_lookup_heap s raddr s' r b c conn :
  getConn_lookup s raddr = (s', r, b) ->
  heap s !! c = Some conn -> heap s' !! c = Some conn.
Proof.
  unfold getConn_lookup. repeat case_match; intros; simplify_eq; cbn; auto.
  apply lookup_app_l_Some. assumption.
Qed.

Lemma wake_parked c x c' p' :
  wake c x = Read_parked c' p' -> x = Read_parked c' p' /\ c' <> c.
Proof.
  destruct x; cbn; try discriminate.
  destruct (Nat.eqb_spec c0 c); [discriminate|]. intros [= <- <-]. auto.
Qed.

Lemma wake_loop_parked c lp buf n c' :
  wake_loop c lp = Loop_parked buf n c' ->
  lp = Loop_parked buf n c' /\ c' <> c.
Proof.
  destruct lp; cbn; try discriminate.
  destruct (Nat.eqb_spec conn c); [discriminate|]. intros [= <- <- <-]. auto.
Qed.

Lemma conn_open_insert_ne (c c' : nat) (x : Conn) (h : list Conn) :
  c' <> c -> 
  (exists conn, h !! c' = Some conn /\ c_doneCh conn = false) ->
  exists conn, <[c := x]> h !! c' = Some conn /\ c_doneCh conn = false.
Proof.
  intros Hne (conn & Hc & Hd). exists conn. split; [|done].
  rewrite list_lookup_insert_ne by done. done.
Qed.

(** A select parks only on an open connection, and closing a connection
    wakes whoever is parked on it. *)
Lemma park_inv_step (m m' : Machine) (a : action) :
  park_inv m -> exec m a = Some m' -> park_inv m'.
Proof.
  intros [HPl HPt] H. exec_cases H.
  all: split; cbn;
    [ intros buf' n' c' Hl'
    | intros t' c' p' Hq; remember (Read_parked c' p') as q eqn:Eq in Hq;
      lookups; subst; try discriminate ].
  all: try (apply wake_parked in Eq; destruct Eq as [-> Hne]).
  all: try (apply wake_loop_parked in Hl'; destruct Hl' as [Hl' Hne]).
  all: simplify_eq.
  all: try match goal with
       | Hx : threads _ !! _ = Some (Read_parked ?c _) |- conn_open _ ?c =>
           pose proof (HPt _ _ _ Hx) as Hopen
       | Hx : loop _ = Loop_parked _ _ ?c |- conn_open _ ?c =>
           pose proof (HPl _ _ _ Hx) as Hopen
       end.
  all: try exact Hopen.
  all: unfold conn_open in *; cbn.
  all: try match goal with
       | Ho : _ || _ = false |- _ =>
           apply orb_false_elim in Ho; destruct Ho; by eauto
       end.
  all: try (apply conn_open_insert_ne; by auto).
  all: try (destruct Hopen as (conn & Hc & Hd); exists conn; split; [|done];
            eapply getConn_lookup_heap; by eauto).
  all: try (destruct Hopen as (conn & Hc & Hd);
            match goal with
            | |- context [<[?c := _]> _ !! ?c'] =>
                destruct (decide (c' = c)) as [->|Hne'];
                [ simplify_eq; rewrite list_lookup_insert_eq
                    by (eapply lookup_lt_Some; eauto); by eauto
                | rewrite list_lookup_insert_ne by done; by eauto ]
            end).
Qed.

(** A closed [doneCh] stays closed. *)
Lemma conn_closed_step (m m' : Machine) (a : action) (c : ConnPtr) :
  conn_closed m c -> exec m a = Some m' -> conn_closed m' c.
Proof.
  intros (conn & Hc & Hd) H. exec_cases H.
  all: unfold conn_closed; cbn.
  all: try (exists conn; split; [|done]; first
              [ assumption | eapply getConn_lookup_heap; by eauto ]).
  all: match goal with
       | |- context [<[?c' := _]> _ !! ?c] =>
           destruct (decide (c = c')) as [->|Hne'];
           [ simplify_eq; rewrite list_lookup_insert_eq
               by (eapply lookup_lt_Some; eauto); by eauto
           | rewrite list_lookup_insert_ne by done; by eauto ]
       end.
Qed.

(** On a closed connection a [Read] at its select meets nobody on
    [readCh] and cannot park. *)
Lemma read_inv_step t c p m a m' :
  read_inv t c p m -> exec m a = Some m' -> read_inv t c p m'.
Proof.
  intros (HP & Hcl & Ht) H.
  split; [eapply park_inv_step; eauto|].
  split; [eapply conn_closed_step; eauto|].
  destruct HP as [HPl HPt]. destruct Hcl as (conn & Hc & Hd).
  assert (Hlt : t < length (threads m)).
  { destruct Ht as [Ht|Ht]; eapply lookup_lt_Some; eauto. }
  assert (Hw : forall c0, wake c0 <$> (threads m !! t) = threads m !! t).
  { intros c0. destruct Ht as [-> | ->]; reflexivity. }
  exec_cases H.
  all: cbn.
  all: try assumption.
  all: try match goal with
       | Hx : threads _ !! ?x = Some _ |- context [<[?x := _]> _] =>
           destruct (decide (x = t)) as [->|Hne]
       end.
  all: try (rewrite ?list_lookup_insert_ne by congruence;
            rewrite ?list_lookup_fmap, ?Hw;
            rewrite ?(lookup_app_l _ _ _ Hlt); assumption).
  all: try (destruct Ht as [Ht|Ht]; congruence).
  all: rewrite ?list_lookup_insert_eq by (by rewrite ?length_fmap).
  all: destruct Ht as [Ht|Ht]; simplify_eq; bool_facts; subst.
  - right; reflexivity.
  - rewrite Hd in *. discriminate.
  - destruct (HPl _ _ _ eq_refl) as (conn' & Hc' & Hd'). congruence.
Qed.

(** ** The counts that [Read] returns *)

Lemma copy_length (dst src : list byte) :
  length (take (length dst) src ++ drop (length src) dst) = length dst.
Proof. rewrite length_app, length_take, length_drop. lia. Qed.

Lemma wake_loop_buf_ok c lp : loop_buf_ok lp -> loop_buf_ok (wake_loop c lp).
Proof.
  destruct lp; cbn; auto. destruct (_ =? _); cbn; tauto.
Qed.

Lemma wake_sizeRecv c x c' p' :
  wake c x = Read_sizeRecv c' p' -> x = Read_sizeRecv c' p'.
Proof. destruct x; cbn; try discriminate; auto. destruct (_ =? _); discriminate. Qed.

Lemma wake_ret c x n p' :
  wake c x = Read_ret n None p' -> x = Read_ret n None p'.
Proof. destruct x; cbn; try discriminate; auto. destruct (_ =? _); discriminate. Qed.

(** [ReadFrom] and [copy] keep the length of the buffers they write. *)
Lemma loop_buf_ok_step (m m' : Machine) (a : action) :
  loop_buf_ok (loop m) -> exec m a = Some m' -> loop_buf_ok (loop m').
Proof.
  intros HB H. exec_cases H.
  all: cbn; try (apply wake_loop_buf_ok); try assumption.
  all: repeat match goal with
       | Hl : loop _ = _ |- _ => rewrite Hl in HB; cbn in HB; clear Hl
       end.
  all: rewrite ?copy_length, ?length_take, ?repeat_length, ?length_replicate.
  all: try tauto; try lia.
Qed.

Lemma is_entry_sizeRecv p c b : is_entry p = true -> p <> Read_sizeRecv c b.
Proof. destruct p; cbn; congruence. Qed.

Ltac size_facts HS HU :=
  repeat match goal with
  | Hx : threads _ !! ?x = Some (Read_sizeRecv _ _) |- _ =>
      learn (HS _ _ _ Hx)
  | Hx : threads _ !! ?x = Some (Read_sizeRecv _ _),
    Hy : threads _ !! ?y = Some (Read_sizeRecv _ _) |- _ =>
      learn (HU _ _ _ _ _ _ Hx Hy)
  end;
  repeat match goal with
  | Hd : (exists _ _ _, _ = Loop_copy _ _ _ _) \/ _ |- _ =>
      destruct Hd as [(? & ? & ? & Hd)|(? & ? & ? & Hd & ?)]
  end.

(** The reader that handed its buffer over is the one waiting on
    [sizeCh], until it gets the count. *)
Lemma size_ok_step (m m' : Machine) (a : action) :
  size_ok m -> exec m a = Some m' -> size_ok m'.
Proof.
  intros [HS HU] H. exec_cases H.
  all: split; cbn;
    [ intros t1 c1 p1 Hq1; remember (Read_sizeRecv c1 p1) as q1 eqn:E1 in Hq1
    | intros t1 t2 c1 c2 p1 p2 Hq1 Hq2;
      remember (Read_sizeRecv c1 p1) as q1 eqn:E1 in Hq1;
      remember (Read_sizeRecv c2 p2) as q2 eqn:E2 in Hq2 ];
    lookups; subst; try discriminate;
    try (apply wake_sizeRecv in E1); try (apply wake_sizeRecv in E2);
    simplify_eq.
  all: try match goal with
       | He : is_entry (Read_sizeRecv _ _) = true |- _ => discriminate He
       end.
  all: size_facts HS HU.
  all: try congruence.
  all: try match goal with
       | Hl : loop _ = _ |- context [wake_loop] => rewrite Hl; cbn
       end.
  all: try (simplify_eq; by eauto 10).
  right. eexists _, _, _. split; [reflexivity|].
  rewrite copy_length. lia.
Qed.

(** The count a [Read] returns is the one [copy] reported. *)
Lemma ret_ok_step (m m' : Machine) (a : action) :
  loop_buf_ok (loop m) -> size_ok m -> ret_ok m ->
  exec m a = Some m' -> ret_ok m'.
Proof.
  intros HB [HS HU] HR H. unfold ret_ok in *. exec_cases H.
  all: cbn; intros t1 n1 p1 Hq1;
       remember (Read_ret n1 None p1) as q1 eqn:E1 in Hq1;
       lookups; subst; try discriminate;
       try (apply wake_ret in E1); simplify_eq.
  all: try match goal with
       | He : is_entry (Read_ret _ _ _) = true |- _ => discriminate He
       end.
  all: try (by eauto).
  destruct (HS _ _ _ Ht) as [(? & ? & ? & ?)|(? & ? & ? & ? & ?)];
    simplify_eq. cbn in HB. lia.
Qed.

Lemma buf_inv_step (m m' : Machine) (a : action) :
  buf_inv m -> exec m a = Some m' -> buf_inv m'.
Proof.
  intros (HB & HS & HR) H. split; [|split].
  - eapply loop_buf_ok_step; eauto.
  - eapply size_ok_step; eauto.
  - eapply ret_ok_step; eauto.
Qed.

(** ** A multiplexer that is not accepting *)

Lemma getConn_lookup_not_accepting (s : State) (raddr : Addr) :
  accepting (lsn s) = false -> conns (lsn s) = ∅ ->
  getConn_lookup s raddr = (s, Err errClosedListener, false).
Proof.
  intros Ha Hc. unfold getConn_lookup. now rewrite Hc, lookup_empty, Ha.
Qed.

Lemma wake_accept c x r : wake c x = Accept_ret r -> x = Accept_ret r.
Proof. destruct x; cbn; try discriminate; auto. destruct (_ =? _); discriminate. Qed.

(** With [accepting] false and an empty registry, no step makes a
    connection. *)
Lemma never_accepts_step (m m' : Machine) (a : action) :
  never_accepts m -> exec m a = Some m' -> never_accepts m'.
Proof.
  intros (Ha & Hc & Hq & Hh & Hl & Ht) H.
  unfold never_accepts.
  exec_cases H.
  all: cbn.
  all: repeat match goal with
       | Hx : heap _ !! _ = Some _ |- _ => rewrite Hh in Hx; discriminate Hx
       | Hx : loop _ = _ |- _ => rewrite Hx in Hl; cbn in Hl; clear Hx
       | Hx : getConn_lookup _ _ = _ |- _ =>
           rewrite getConn_lookup_not_accepting in Hx by assumption;
           simplify_eq
       end.
  all: try discriminate.
  all: repeat split; try assumption; try reflexivity.
  all: intros t' c' Hq'; remember (Accept_ret (Ok c')) as q eqn:E in Hq';
       lookups; subst; try discriminate; try (apply wake_accept in E);
       simplify_eq; try (by eapply Ht; eauto).
Qed.

(** ** The machine after [Listen] *)

Lemma lock_inv_boot (s : State) : lock_inv (boot s).
Proof. split; cbn; [discriminate|]. intros t p H. discriminate H. Qed.

Lemma park_inv_boot (s : State) : park_inv (boot s).
Proof. split; cbn; [discriminate|]. intros t c p H. discriminate H. Qed.

Lemma buf_inv_boot (s : State) : buf_inv (boot s).
Proof.
  split; [exact I|]. split; [split|]; cbn; intros; discriminate.
Qed.

Lemma lock_inv_reachable s sched m :
  run (boot s) sched = Some m -> lock_inv m.
Proof.
  apply (run_invariant lock_inv).
  - intros; eapply lock_inv_step; eauto.
  - apply lock_inv_boot.
Qed.

Lemma park_inv_reachable s sched m :
  run (boot s) sched = Some m -> park_inv m.
Proof.
  apply (run_invariant park_inv).
  - intros; eapply park_inv_step; eauto.
  - apply park_inv_boot.
Qed.

Lemma buf_inv_reachable s sched m :
  run (boot s) sched = Some m -> buf_inv m.
Proof.
  apply (run_invariant buf_inv).
  - intros; eapply buf_inv_step; eauto.
  - apply buf_inv_boot.
Qed.

(** [getConn] on a multiplexer that is not accepting and has no peer. *)
Lemma getConn_not_accepting (s : State) (raddr : Addr) :
  accepting (lsn s) = false -> conns (lsn s) = ∅ ->
  getConn s raddr = (s, Err errClosedListener).
Proof.
  intros Ha Hc. unfold getConn.
  now rewrite getConn_lookup_not_accepting.
Qed.

(** C1 on the code. [Listen] leaves [accepting] at Go's zero value, false,
    and nothing sets it. So on the multiplexer [Listen] returns, whatever
    datagrams arrive and whatever the callers do, [getConn] answers
    [errClosedListener] for every address, the registry stays empty, no
    connection is ever made, nothing is sent on [acceptCh], and no [Accept]
    returns a connection. *)
Theorem C1_Listen_never_accepts
    (sock : UDPConn) (s : State) (sched : list action) (m : Machine) :
  Listen (Ok sock) = Ok s ->
  run (boot s) sched = Some m ->
  (forall raddr, getConn (st m) raddr = (st m, Err errClosedListener)) /\
  conns (lsn (st m)) = ∅ /\
  heap (st m) = [] /\
  acceptCh (lsn (st m)) = [] /\
  (forall t c, threads m !! t <> Some (Accept_ret (Ok c))).
Proof.
  intros HL Hr. cbn in HL. injection HL as <-.
  assert (Hn : never_accepts m).
  { revert Hr. apply (run_invariant never_accepts).
    - intros; eapply never_accepts_step; eauto.
    - repeat split. intros t c H. discriminate H. }
  destruct Hn as (Ha & Hc & Hq & Hh & _ & Ht).
  split; [|auto]. intros raddr. now apply getConn_not_accepting.
Qed.

(** Datagrams from two addresses, with an [Accept] waiting. *)
Lemma C1_Listen_never_accepts_witness :
  exists m,
    run (boot listening) two_datagrams = Some m /\
    (forall raddr, getConn (st m) raddr = (st m, Err errClosedListener)) /\
    conns (lsn (st m)) = ∅ /\
    heap (st m) = [] /\
    acceptCh (lsn (st m)) = [] /\
    (forall t c, threads m !! t <> Some (Accept_ret (Ok c))).
Proof.
  destruct (run (boot listening) two_datagrams) as [m|] eqn:E;
    [|vm_compute in E; discriminate E].
  exists m. split; [reflexivity|].
  exact (C1_Listen_never_accepts sock0 listening two_datagrams m eq_refl E).
Defined.

(** X22. [Listener.Close] holds the listener's lock while
    [closeConn] waits, and [Conn.Close] needs that lock to leave the
    registry. So from the moment a goroutine has entered [closeConn] with
    peers in the registry, and in every interleaving: as long as the socket
    is open the registry is what it was, and every peer that has called
    [Close] and reached [c.listener.lock.Lock()] is blocked there; and when
    the socket is closed, the timeout has elapsed. *)
Theorem registry_cannot_drain_during_Close
    (s : State) (sched0 : list action) (m : Machine) (t : tid) (timeout : nat)
    (sched : list action) (m' : Machine) :
  run (boot s) sched0 = Some m ->
  threads m !! t = Some (LClose_closeConn timeout) ->
  size (conns (lsn (st m))) <> 0 ->
  closed (pConn (lsn (st m))) = false ->
  run m sched = Some m' ->
  (closed (pConn (lsn (st m'))) = false ->
   conns (lsn (st m')) = conns (lsn (st m)) /\
   (forall u c, threads m' !! u = Some (CClose_listenerLock c) ->
                exec m' (Run u) = None)) /\
  (closed (pConn (lsn (st m'))) = true -> now m + timeout <= now m').
Proof.
  intros Hreach Ht Hne Hop Hr.
  assert (Hg : grace_inv t (now m) timeout (conns (lsn (st m))) m').
  { revert Hr. apply (run_invariant (grace_inv t (now m) timeout _)).
    - intros; eapply grace_inv_step; eauto.
    - split; [eapply lock_inv_reachable; eauto|]. split; [lia|].
      left. split; [exact Hop|]. split; [reflexivity|].
      eexists; split; [exact Ht | left; reflexivity]. }
  destruct Hg as ([_ HT] & _ & [(Hop' & Hc' & p & Hp & Hin)|(Hcl' & Hb)]).
  - split; [|congruence]. intros _. split; [exact Hc'|].
    intros u c Hu.
    pose proof (HT t p Hp (in_closeConn_holds _ _ _ Hin)) as Hlk.
    cbn. rewrite Hu. cbn.
    destruct (heap (st m') !! c) as [conn|]; cbn; [|reflexivity].
    rewrite Hlk. now destruct (listener conn).
  - split; [congruence|]. intros _. exact Hb.
Qed.

(** One open peer and a timeout of 300 ms: the peer calls [Close] at once,
    is blocked, and is still registered 200 ms later; the socket is closed
    when the timer fires, 300 ms in. *)
Lemma registry_cannot_drain_during_Close_witness :
  exists m m1 m2,
    run (boot one_peer) close_begins = Some m /\
    run m grace_wait = Some m1 /\
    run m grace_expires = Some m2 /\
    (* 200 ms in, the peer has called Close and is blocked *)
    threads m1 !! 1 = Some (CClose_listenerLock 0) /\
    exec m1 (Run 1) = None /\
    conns (lsn (st m1)) = conns (lsn (st m)) /\
    (* the socket is closed when the timer fires *)
    closed (pConn (lsn (st m2))) = true /\
    now m + 300 <= now m2.
Proof.
  destruct (run (boot one_peer) close_begins) as [m|] eqn:E0;
    [|vm_compute in E0; discriminate E0].
  destruct (run m grace_wait) as [m1|] eqn:E1;
    [|vm_compute in E0; injection E0 as <-; vm_compute in E1; discriminate E1].
  destruct (run m grace_expires) as [m2|] eqn:E2;
    [|vm_compute in E0; injection E0 as <-; vm_compute in E2; discriminate E2].
  exists m, m1, m2.
  split; [reflexivity|]. split; [exact E1|]. split; [exact E2|].
  assert (Ht : threads m !! 0 = Some (LClose_closeConn 300)).
  { vm_compute in E0. injection E0 as <-. reflexivity. }
  assert (Hne : size (conns (lsn (st m))) <> 0).
  { vm_compute in E0. injection E0 as <-. vm_compute. discriminate. }
  assert (Hop : closed (pConn (lsn (st m))) = false).
  { vm_compute in E0. injection E0 as <-. reflexivity. }
  assert (Hop1 : closed (pConn (lsn (st m1))) = false).
  { vm_compute in E0. injection E0 as <-. vm_compute in E1.
    injection E1 as <-. reflexivity. }
  assert (Hu : threads m1 !! 1 = Some (CClose_listenerLock 0)).
  { vm_compute in E0. injection E0 as <-. vm_compute in E1.
    injection E1 as <-. reflexivity. }
  assert (Hcl2 : closed (pConn (lsn (st m2))) = true).
  { vm_compute in E0. injection E0 as <-. vm_compute in E2.
    injection E2 as <-. reflexivity. }
  pose proof (registry_cannot_drain_during_Close one_peer close_begins m 0
                300 grace_wait m1 E0 Ht Hne Hop E1) as [H1 _].
  pose proof (registry_cannot_drain_during_Close one_peer close_begins m 0
                300 grace_expires m2 E0 Ht Hne Hop E2) as [_ H2].
  destruct (H1 Hop1) as [Hc Hb].
  split; [exact Hu|]. split; [exact (Hb 1 0 Hu)|]. split; [exact Hc|].
  split; [exact Hcl2 | exact (H2 Hcl2)].
Defined.

(** C3. Once [Close] has closed [c.doneCh], a [Read] that arrives at its
    select can return [0, io.EOF] with its buffer untouched, and in every
    interleaving that is all that happens to it: it is at the select still,
    or it has returned [0, io.EOF] with the buffer [p] as the caller passed
    it. No hand-over to the dispatch loop can take place, even with a
    datagram for the connection in the loop's hands. *)
Theorem C3_Read_after_Close_is_EOF
    (s : State) (sched0 : list action) (m : Machine)
    (t : tid) (c : ConnPtr) (conn : Conn) (p : list byte) :
  run (boot s) sched0 = Some m ->
  heap (st m) !! c = Some conn ->
  c_doneCh conn = true ->
  threads m !! t = Some (Read_select c p) ->
  exec m (Done t) = Some (set_thread t (Read_ret 0 (Some EOF) p) m) /\
  (forall sched m',
      run m sched = Some m' ->
      threads m' !! t = Some (Read_select c p) \/
      threads m' !! t = Some (Read_ret 0 (Some EOF) p)).
Proof.
  intros Hreach Hc Hd Ht. split.
  - cbn. rewrite Ht. cbn. rewrite Hc. cbn. now rewrite Hd.
  - intros sched m' Hr.
    assert (Hi : read_inv t c p m').
    { revert Hr. apply (run_invariant (read_inv t c p)).
      - intros; eapply read_inv_step; eauto.
      - split; [eapply park_inv_reachable; eauto|].
        split; [exists conn; auto | left; exact Ht]. }
    apply Hi.
Qed.

(** The open peer is closed, then read. *)
Lemma C3_Read_after_Close_is_EOF_witness :
  exists m,
    run (boot one_peer) close_then_read = Some m /\
    exec m (Done 1) = Some (set_thread 1 (Read_ret 0 (Some EOF) hello) m) /\
    (forall sched m',
        run m sched = Some m' ->
        threads m' !! 1 = Some (Read_select 0 hello) \/
        threads m' !! 1 = Some (Read_ret 0 (Some EOF) hello)).
Proof.
  destruct (run (boot one_peer) close_then_read) as [m|] eqn:E0;
    [|vm_compute in E0; discriminate E0].
  exists m. split; [reflexivity|].
  apply (C3_Read_after_Close_is_EOF one_peer close_then_read m 1 0
           (mkConn None peerA true true) hello E0).
  - vm_compute in E0. injection E0 as <-. reflexivity.
  - reflexivity.
  - vm_compute in E0. injection E0 as <-. reflexivity.
Defined.

Lemma take_min_length (n : nat) (l : list byte) :
  take (Nat.min n (length l)) l = take n l.
Proof.
  destruct (Nat.le_gt_cases n (length l)) as [H|H].
  - now rewrite Nat.min_l.
  - rewrite Nat.min_r by lia. rewrite !take_ge by lia. reflexivity.
Qed.

(** What a hand-over delivers: the first bytes of the datagram, as many as
    fit both the loop's buffer and the caller's. *)
Lemma handoff_truncates (buf payload cBuf : list byte) :
  let '(buf', n) := ReadFrom buf payload in
  let '(cBuf', n') := copy cBuf (firstn n buf') in
  n' = Nat.min (length cBuf) (Nat.min (length buf) (length payload)) /\
  length cBuf' = length cBuf /\
  firstn n' cBuf' = firstn n' payload /\
  skipn n' cBuf' = skipn n' cBuf.
Proof.
  unfold ReadFrom, copy.
  set (src := take (length buf) payload).
  assert (Hs : length src = Nat.min (length buf) (length payload))
    by (subst src; apply length_take).
  assert (Ht : take (length buf `min` length payload)
                 (src ++ drop (length payload) buf) = src).
  { rewrite <- Hs. apply take_app_length. }
  rewrite Ht, Hs.
  set (n' := Nat.min (length cBuf) (Nat.min (length buf) (length payload))).
  assert (Hl : length (take (length cBuf) src) = n').
  { rewrite length_take, Hs. subst n'. lia. }
  split; [reflexivity|]. split; [|split].
  - rewrite <- Hs. apply copy_length.
  - rewrite <- Hl at 1. rewrite take_app_length.
    subst src n'. rewrite take_take, Nat.min_assoc.
    now rewrite take_min_length.
  - rewrite <- Hl at 1. rewrite drop_app_length.
    subst n'.
    destruct (Nat.le_gt_cases (length buf `min` length payload) (length cBuf))
      as [H|H].
    + now rewrite (Nat.min_r (length cBuf)) by lia.
    + rewrite (Nat.min_l (length cBuf)) by lia.
      rewrite !drop_ge by lia. reflexivity.
Qed.

(** C10. In every state the machine reaches, a [Read] that has returned
    without error has returned a count no greater than the length of the
    caller's buffer and no greater than [receiveMTU], that is 8192. (What
    is delivered is the head of the datagram: see [handoff_truncates].) *)
Theorem C10_Read_count_bounded
    (s : State) (sched : list action) (m : Machine)
    (t n : nat) (p : list byte) :
  run (boot s) sched = Some m ->
  threads m !! t = Some (Read_ret n None p) ->
  n <= Nat.min (length p) receiveMTU.
Proof.
  intros Hr Ht. destruct (buf_inv_reachable _ _ _ Hr) as (_ & _ & HR).
  exact (HR t n p Ht).
Qed.

(** Five bytes arrive, the caller's buffer has room for three. *)
Lemma C10_Read_count_bounded_witness :
  exists m,
    run (boot one_peer) read_three = Some m /\
    threads m !! 0 = Some (Read_ret 3 None [Byte.x68; Byte.x65; Byte.x6c]) /\
    3 <= Nat.min (length [Byte.x68; Byte.x65; Byte.x6c]) receiveMTU.
Proof.
  destruct (run (boot one_peer) read_three) as [m|] eqn:E0;
    [|vm_compute in E0; discriminate E0].
  exists m. split; [reflexivity|].
  assert (Ht : threads m !! 0
               = Some (Read_ret 3 None [Byte.x68; Byte.x65; Byte.x6c])).
  { assert (E : (run (boot one_peer) read_three ≫= fun m => threads m !! 0)
                = Some (Read_ret 3 None [Byte.x68; Byte.x65; Byte.x6c]))
      by (vm_compute; reflexivity).
    rewrite E0 in E. exact E. }
  split; [exact Ht|].
  exact (C10_Read_count_bounded one_peer read_three m 0 3 _ E0 Ht).
Defined.

(** Two machines with the same components are the same. *)
Lemma machine_ext (m1 m2 : Machine) :
  st m1 = st m2 -> l_lock m1 = l_lock m2 -> c_lock m1 = c_lock m2 ->
  loop m1 = loop m2 -> threads m1 = threads m2 -> now m1 = now m2 ->
  m1 = m2.
Proof. destruct m1, m2; cbn; intros; subst; reflexivity. Qed.

(** [Conn.Write] is two steps of its goroutine. *)
Lemma Write_runs (m : Machine) (t : tid) (c : ConnPtr) (conn : Conn)
    (p : list byte) :
  heap (st m) !! c = Some conn ->
  threads m !! t = Some (Write_Lock c p) ->
  c_lock m !! c = None ->
  exists s' n err,
    Conn_Write (st m) c p = Some (s', (n, err)) /\
    run m [Run t; Run t] = Some (set_thread t (Write_ret n err) (set_st s' m)).
Proof.
  intros Hc Ht Hk.
  assert (Hlt : t < length (threads m)) by (eapply lookup_lt_Some; eauto).
  unfold Conn_Write. rewrite Hc. cbn. rewrite Ht. cbn. rewrite Hk, Hc. cbn.
  rewrite list_lookup_insert_eq by exact Hlt. cbn.
  destruct (listener conn) as [l|].
  - rewrite Hc. cbn.
    destruct (WriteTo (pConn (lsn (st m))) p (rAddr conn)) as [u [n err]].
    eexists _, n, err. split; [reflexivity|].
    unfold set_thread, set_threads, set_st; cbn.
    now rewrite list_insert_insert_eq.
  - exists (st m), 0, (Some EOF). split; [reflexivity|].
    unfold set_thread, set_threads, set_st; cbn.
    rewrite list_insert_insert_eq. now destruct m.
Qed.

(** ** The calls as runs of the machine *)

(** A first [Conn.Close] with both locks free is five steps of its
    goroutine, and ends in the state [Conn_Close] computes. *)
Lemma Conn_Close_runs (m : Machine) (t : tid) (c : ConnPtr) (conn : Conn) :
  heap (st m) !! c = Some conn ->
  threads m !! t = Some (CClose_Lock c) ->
  c_lock m !! c = None ->
  l_lock m = None ->
  c_doneOnce conn = false ->
  c_doneCh conn = false ->
  listener conn = Some thisListener ->
  exists s',
    Conn_Close (st m) c = Some (s', None) /\
    run m [Run t; Run t; Run t; Run t; Run t] =
    Some (mkMachine s' None (c_lock m) (wake_loop c (loop m))
            (<[t := CClose_ret None]> (wake c <$> threads m)) (now m)).
Proof.
  intros Hc Ht Hk Hl Ho Hd Hln.
  assert (Hlt : t < length (threads m)) by (eapply lookup_lt_Some; eauto).
  assert (Hlc : c < length (heap (st m))) by (eapply lookup_lt_Some; eauto).
  eexists. split; [apply Conn_Close_open; eassumption|].
  cbn. rewrite Ht. cbn. rewrite Hk. cbn.
  rewrite list_lookup_insert_eq by exact Hlt. cbn.
  rewrite Hc. cbn. rewrite Ho, Hd. cbn.
  repeat (rewrite ?Hln, ?Hl, ?list_fmap_insert, ?list_insert_insert_eq;
          rewrite list_lookup_insert_eq
            by (rewrite ?length_insert, ?length_fmap; first [exact Hlt|exact Hlc]);
          cbn).
  rewrite delete_insert_id by exact Hk.
  f_equal. apply machine_ext; cbn; try reflexivity.
  - unfold unregister, close_doneCh; cbn. now rewrite list_insert_insert_eq.
  - now rewrite ?list_fmap_insert, ?list_insert_insert_eq.
Qed.

(** [Listener.Close] on an empty registry is four steps of its goroutine,
    with no time passing, and ends in the state [Listener_Close] computes. *)
Lemma Listener_Close_runs (m : Machine) (t : tid) (timeout : nat) :
  threads m !! t = Some (LClose_Lock timeout) ->
  l_lock m = None ->
  l_doneOnce (lsn (st m)) = false ->
  l_doneCh (lsn (st m)) = false ->
  conns (lsn (st m)) = ∅ ->
  exists s' err,
    Listener_Close (st m) timeout = Some (s', err, 0) /\
    run m [Run t; Run t; Run t; Run t] =
    Some (mkMachine s' None (c_lock m) (loop m)
            (<[t := LClose_ret err]> (threads m)) (now m)).
Proof.
  intros Ht Hl Ho Hd He.
  assert (Hlt : t < length (threads m)) by (eapply lookup_lt_Some; eauto).
  unfold Listener_Close. rewrite Ho, Hd.
  rewrite closeConn_empty by exact He. cbn.
  eexists _, _. split; [reflexivity|].
  rewrite Ht. cbn. rewrite Hl. cbn.
  rewrite list_lookup_insert_eq by exact Hlt. cbn. rewrite Ho, Hd. cbn.
  repeat (rewrite ?list_insert_insert_eq;
          rewrite list_lookup_insert_eq
            by (rewrite ?length_insert; exact Hlt);
          cbn).
  rewrite He, map_size_empty. cbn.
  unfold close_socket. cbn.
  destruct (UDPConn_Close (pConn (lsn (st m)))) as [u err]. cbn.
  repeat (rewrite ?list_insert_insert_eq;
          rewrite list_lookup_insert_eq
            by (rewrite ?length_insert; exact Hlt);
          cbn).
  f_equal. apply machine_ext; cbn; try reflexivity.
  now rewrite ?list_insert_insert_eq.
Qed.


(** C5. A [Write] whose turn has come runs in two steps of its own,
    whatever the dispatch loop is doing and without moving it. On a
    connection whose [listener] is nil, as [Close] leaves it, it returns
    [0, io.EOF] and changes nothing. On a connection that has its listener
    it returns what [WriteTo] on the shared socket returns for the buffer
    and the connection's remote address, and only the socket changes: the
    network takes the datagram, which is appended to what was sent, and the
    length of the buffer is returned; or the socket is closed or the network
    refuses the datagram, and then nothing is sent and 0 and the error are
    returned. *)
Theorem C5_Conn_Write
    (m : Machine) (t : tid) (c : ConnPtr) (conn : Conn) (p : list byte) :
  heap (st m) !! c = Some conn ->
  threads m !! t = Some (Write_Lock c p) ->
  c_lock m !! c = None ->
  exists s' n err,
    Conn_Write (st m) c p = Some (s', (n, err)) /\
    run m [Run t; Run t] = Some (set_thread t (Write_ret n err) (set_st s' m)) /\
    (listener conn = None -> s' = st m /\ n = 0 /\ err = Some EOF) /\
    (listener conn = Some thisListener ->
     (pConn (lsn s'), (n, err)) = WriteTo (pConn (lsn (st m))) p (rAddr conn) /\
     heap s' = heap (st m) /\
     conns (lsn s') = conns (lsn (st m)) /\
     (closed (pConn (lsn (st m))) = false ->
      refuses (pConn (lsn (st m))) (sent (pConn (lsn (st m)))) p (rAddr conn)
        = None ->
      sent (pConn (lsn s')) = sent (pConn (lsn (st m))) ++ [(p, rAddr conn)] /\
      n = length p /\ err = None) /\
     (closed (pConn (lsn (st m))) = false ->
      forall e,
        refuses (pConn (lsn (st m))) (sent (pConn (lsn (st m)))) p (rAddr conn)
          = Some e ->
        s' = st m /\ n = 0 /\ err = Some e) /\
     (closed (pConn (lsn (st m))) = true ->
      s' = st m /\ n = 0 /\ err = Some errNetClosing)) /\
    (forall s1 e,
        c_doneOnce conn = false ->
        Conn_Close (st m) c = Some (s1, e) ->
        Conn_Write s1 c p = Some (s1, (0, Some EOF))).
Proof.
  intros Hc Ht Hk.
  destruct (Write_runs m t c conn p Hc Ht Hk) as (s' & n & err & HW & Hrun).
  exists s', n, err. split; [exact HW|]. split; [exact Hrun|].
  split; [|split].
  - intros Hn. rewrite (Conn_Write_nil _ _ _ _ Hc Hn) in HW.
    injection HW as <- <- <-. auto.
  - intros Hl. rewrite (Conn_Write_open _ _ _ _ Hc Hl) in HW.
    injection HW as <- Hr. cbn.
    split; [rewrite <- Hr; now destruct (WriteTo _ _ _)|].
    split; [reflexivity|]. split; [reflexivity|].
    unfold WriteTo in *. split; [|split].
    + intros Hop Hno. rewrite Hop, Hno in *. cbn in *.
      injection Hr as <- <-. auto.
    + intros Hop e He. rewrite Hop, He in *. cbn in *.
      injection Hr as <- <-. split; [|auto].
      destruct (st m) as [l h]. destruct l. reflexivity.
    + intros Hcl. rewrite Hcl in *. cbn in *.
      injection Hr as <- <-. split; [|auto].
      destruct (st m) as [l h]. destruct l. reflexivity.
  - intros s1 e Ho Hcl.
    assert (Hlt : c < length (heap (st m))) by (eapply lookup_lt_Some; eauto).
    unfold Conn_Close in Hcl. rewrite Hc in Hcl. cbn in Hcl. rewrite Ho in Hcl.
    destruct (c_doneCh conn); [discriminate|].
    destruct (listener conn); [|discriminate].
    unfold close_doneCh, unregister in Hcl. cbn in Hcl.
    rewrite (list_lookup_insert_eq (heap (st m))) in Hcl by exact Hlt.
    cbn in Hcl. injection Hcl as <- <-.
    eapply Conn_Write_nil; cbn.
    + apply list_lookup_insert_eq. now rewrite length_insert.
    + reflexivity.
Qed.

(** A write of "hello" on the open peer, which the network takes, and a
    write of 70000 bytes, more than a datagram carries, which it refuses. *)
Lemma C5_Conn_Write_witness :
  (exists s',
     Conn_Write (st writer_machine) 0 hello = Some (s', (5, None)) /\
     run writer_machine [Run 0; Run 0] =
     Some (set_thread 0 (Write_ret 5 None) (set_st s' writer_machine)) /\
     sent (pConn (lsn s')) = [(hello, peerA)]) /\
  Conn_Write (st big_writer) 0 (repeat Byte.x00 (70 * 1000))
  = Some (st big_writer, (0, Some (errSend "message too long"))) /\
  run big_writer [Run 0; Run 0] =
  Some (set_thread 0 (Write_ret 0 (Some (errSend "message too long")))
          (set_st (st big_writer) big_writer)).
Proof.
  split.
  - destruct (C5_Conn_Write writer_machine 0 0 (newConn peerA) hello
                eq_refl eq_refl eq_refl)
      as (s' & n & err & HW & Hrun & _ & Hopen & _).
    destruct (Hopen eq_refl) as (_ & _ & _ & Hsend & _).
    destruct (Hsend eq_refl eq_refl) as (Hs & -> & ->).
    exists s'. split; [exact HW|]. split; [exact Hrun | exact Hs].
  - destruct (C5_Conn_Write big_writer 0 0 (newConn peerA)
                (repeat Byte.x00 (70 * 1000)) eq_refl eq_refl eq_refl)
      as (s' & n & err & HW & Hrun & _ & Hopen & _).
    destruct (Hopen eq_refl) as (_ & _ & _ & _ & Hrefused & _).
    assert (Hr : refuses (pConn (lsn (st big_writer)))
                   (sent (pConn (lsn (st big_writer))))
                   (repeat Byte.x00 (70 * 1000)) (rAddr (newConn peerA))
                 = Some (errSend "message too long"))
      by (vm_compute; reflexivity).
    destruct (Hrefused eq_refl _ Hr) as (-> & -> & ->).
    split; [exact HW | exact Hrun].
Defined.

End MachineProofs.

(* ===================================================================== *)
(** * More of the multiplexer                                             *)
(* ===================================================================== *)

Module MoreUDPProofs.
Import UDP UDPProofs MachineProofs.

Local Opaque receiveMTU.

(** ** The registry *)

Lemma reg_wf_getConn_lookup (s s' : State) (raddr : Addr) r b :
  reg_wf s -> getConn_lookup s raddr = (s', r, b) -> reg_wf s'.
Proof.
  intros Hwf. unfold getConn_lookup.
  destruct (conns (lsn s) !! raddr) as [c0|] eqn:E; [intros [= <- <- <-]; exact Hwf|].
  destruct (accepting (lsn s)); cbn; intros [= <- <- <-]; [|exact Hwf].
  intros a c. cbn. rewrite lookup_insert. case_decide as Ha.
  - intros [= <-]. subst a. exists (newConn raddr).
    split; [|split; reflexivity].
    rewrite lookup_app_r by lia. now rewrite Nat.sub_diag.
  - intros Hc. destruct (Hwf a c Hc) as (conn & Hh & Hr & Hl).
    exists conn. split; [|auto]. now apply lookup_app_l_Some.
Qed.

Lemma reg_wf_step (m m' : Machine) (a : action) :
  reg_wf (st m) -> exec m a = Some m' -> reg_wf (st m').
Proof.
  intros Hwf H. exec_cases H.
  all: try assumption.
  all: try (eapply reg_wf_getConn_lookup; by eauto).
  - (* close(c.doneCh) *)
    intros a0 c1 Hc. cbn in *. destruct (Hwf a0 c1 Hc) as (conn & Hh & Hr & Hl).
    destruct (decide (c1 = c)) as [->|Hne].
    + simplify_eq. eexists. split;
        [apply list_lookup_insert_eq; eapply lookup_lt_Some; eauto|]. auto.
    + exists conn. rewrite list_lookup_insert_ne by done. auto.
  - (* delete; c.listener = nil *)
    intros a0 c1 Hc. cbn in *.
    apply lookup_delete_Some in Hc. destruct Hc as [Hne Hc].
    destruct (Hwf a0 c1 Hc) as (conn & Hh & Hr & Hl).
    destruct (decide (c1 = c)) as [->|Hne'].
    + simplify_eq.
    + exists conn. rewrite list_lookup_insert_ne by done. auto.
Qed.

Lemma reg_wf_empty (s : State) : conns (lsn s) = ∅ -> reg_wf s.
Proof. intros He a c H. rewrite He, lookup_empty in H. discriminate H. Qed.

(** X1. Whatever the goroutines do, in whatever order, every entry of the
    registry leads to a connection that exists, carries the address it is
    registered under and still has its listener: [getConn] registers what
    [newConn] made, and [Conn.Close] removes the entry before it clears
    [c.listener]. *)
Theorem registry_entries_are_live (m m' : Machine) (sched : list action) :
  reg_wf (st m) -> run m sched = Some m' -> reg_wf (st m').
Proof.
  intros Hwf Hr.
  apply (run_invariant (fun m => reg_wf (st m))) with sched m; auto.
  intros; eapply reg_wf_step; eauto.
Qed.

(** X2. The connection [getConn] returns for an address is the one
    registered under that address afterwards, and its [rAddr] is that
    address. *)
Theorem getConn_own_address (s s' : State) (raddr : Addr) (c : ConnPtr) :
  reg_wf s ->
  getConn s raddr = (s', Ok c) ->
  reg_wf s' /\
  conns (lsn s') !! raddr = Some c /\
  exists conn, heap s' !! c = Some conn /\ rAddr conn = raddr /\
               listener conn = Some thisListener.
Proof.
  intros Hwf H.
  assert (Hwf' : reg_wf s' /\ conns (lsn s') !! raddr = Some c).
  { unfold getConn in H.
    destruct (getConn_lookup s raddr) as [[s1 r] b] eqn:E.
    pose proof (reg_wf_getConn_lookup _ _ _ _ _ Hwf E) as H1.
    unfold getConn_lookup in E.
    destruct (conns (lsn s) !! raddr) as [c0|] eqn:Er.
    - injection E as <- <- <-. injection H as <- <-. auto.
    - destruct (accepting (lsn s)); cbn in E; injection E as <- <- <-;
        [|discriminate H].
      injection H as <- <-. split; [exact H1|]. cbn. apply lookup_insert_eq. }
  destruct Hwf' as [H1 H2]. split; [exact H1|]. split; [exact H2|].
  exact (H1 raddr c H2).
Qed.

(** X4. After [Close] on an open connection its address is free again: the
    next datagram from that address makes [getConn] create a second
    connection, send it on [acceptCh] and register it, while the first one
    stays closed and without listener. *)
Theorem closed_address_is_reused (s : State) (c : ConnPtr) (conn : Conn) :
  heap s !! c = Some conn ->
  c_doneOnce conn = false ->
  c_doneCh conn = false ->
  listener conn = Some thisListener ->
  accepting (lsn s) = true ->
  exists s1 s2,
    Conn_Close s c = Some (s1, None) /\
    conns (lsn s1) !! rAddr conn = None /\
    getConn s1 (rAddr conn) = (s2, Ok (length (heap s))) /\
    length (heap s) <> c /\
    heap s2 !! c = Some (mkConn None (rAddr conn) true true) /\
    heap s2 !! length (heap s) = Some (newConn (rAddr conn)) /\
    conns (lsn s2) !! rAddr conn = Some (length (heap s)) /\
    acceptCh (lsn s2) = acceptCh (lsn s) ++ [length (heap s)].
Proof.
  intros Hc Ho Hd Hl Ha.
  assert (Hlt : c < length (heap s)) by (eapply lookup_lt_Some; eauto).
  eexists. 
  destruct (getConn_new
              (mkState (set_conns (delete (rAddr conn) (conns (lsn s))) (lsn s))
                 (<[c := mkConn None (rAddr conn) true true]> (heap s)))
              (rAddr conn)) as (s2 & Hg & Hh & Hr & Hq).
  { cbn. apply lookup_delete_eq. }
  { exact Ha. }
  cbn in Hg, Hh, Hr, Hq. rewrite length_insert in *.
  exists s2. split; [apply (Conn_Close_open s c conn); assumption|].
  split; [cbn; apply lookup_delete_eq|]. split; [exact Hg|].
  split; [lia|]. rewrite Hh, Hr, Hq.
  split; [rewrite lookup_app_l by (rewrite length_insert; lia);
          now apply list_lookup_insert_eq|].
  split; [rewrite lookup_app_r by (rewrite length_insert; lia);
          now rewrite length_insert, Nat.sub_diag|].
  split; [apply lookup_insert_eq | reflexivity].
Qed.

Lemma first_seen_not_seen (seen : gset string) (raddrs : list Addr) (a : Addr) :
  a ∈ first_seen seen raddrs -> (a ∉ seen) /\ (a ∈ raddrs).
Proof.
  revert seen. induction raddrs as [|r raddrs IH]; intros seen; cbn.
  - intros H. apply not_elem_of_nil in H. contradiction.
  - destruct (decide (r ∈ seen)) as [Hr|Hr].
    + intros H. destruct (IH _ H) as [H1 H2]. split; [exact H1|].
      apply elem_of_cons. auto.
    + intros H. apply elem_of_cons in H. destruct H as [->|H].
      * split; [exact Hr|]. apply elem_of_cons. auto.
      * destruct (IH _ H) as [H1 H2]. split; [set_solver|].
        apply elem_of_cons. auto.
Qed.

Lemma first_seen_NoDup (seen : gset string) (raddrs : list Addr) :
  NoDup (first_seen seen raddrs).
Proof.
  revert seen. induction raddrs as [|r raddrs IH]; intros seen; cbn.
  - constructor.
  - destruct (decide (r ∈ seen)) as [Hr|Hr]; [apply IH|].
    constructor; [|apply IH].
    intros Hin. apply first_seen_not_seen in Hin. set_solver.
Qed.

Lemma getConn_accepting (s s' : State) (raddr : Addr) r :
  getConn s raddr = (s', r) -> accepting (lsn s') = accepting (lsn s).
Proof.
  unfold getConn, getConn_lookup.
  destruct (conns (lsn s) !! raddr); cbn; [now intros [= <- <-]|].
  destruct (accepting (lsn s)) eqn:E; cbn; intros [= <- <-]; cbn; auto.
Qed.

(** X3. An accepting multiplexer that sees a sequence of source addresses
    creates one connection for each address it has not seen, in the order
    of first appearance, sends them on [acceptCh] in that order, and leaves
    the entries it had as they were. *)
Theorem getConns_first_seen (s : State) (raddrs : list Addr) :
  accepting (lsn s) = true ->
  heap (getConns s raddrs).1 =
    heap s ++ (newConn <$> first_seen (dom (conns (lsn s))) raddrs) /\
  acceptCh (lsn (getConns s raddrs).1) =
    acceptCh (lsn s) ++
    seq (length (heap s))
        (length (first_seen (dom (conns (lsn s))) raddrs)) /\
  dom (conns (lsn (getConns s raddrs).1)) =
    dom (conns (lsn s)) ∪ list_to_set raddrs /\
  (forall i a, first_seen (dom (conns (lsn s))) raddrs !! i = Some a ->
     conns (lsn (getConns s raddrs).1) !! a = Some (length (heap s) + i)) /\
  (forall a, a ∈ dom (conns (lsn s)) ->
     conns (lsn (getConns s raddrs).1) !! a = conns (lsn s) !! a) /\
  NoDup (first_seen (dom (conns (lsn s))) raddrs).
Proof.
  revert s. induction raddrs as [|a raddrs IH]; intros s Ha.
  { cbn. rewrite !app_nil_r.
    split; [reflexivity|]. split; [reflexivity|].
    split; [now rewrite union_empty_r_L|].
    split; [intros i a Hi; discriminate Hi|].
    split; [reflexivity | constructor]. }
  cbn [getConns first_seen].
  destruct (getConn s a) as [s1 r] eqn:Eg.
  pose proof (getConn_accepting _ _ _ _ Eg) as Ha1. rewrite Ha in Ha1.
  specialize (IH s1 Ha1).
  destruct (getConns s1 raddrs) as [s2 rs] eqn:Egs. cbn [fst] in *.
  destruct IH as (IHh & IHq & IHd & IHi & IHo & IHn).
  destruct (conns (lsn s) !! a) as [c0|] eqn:Er.
  - (* a peer that is known *)
    rewrite (getConn_seen _ _ _ Er) in Eg. injection Eg as <- <-.
    assert (Hin : a ∈ dom (conns (lsn s))) by (apply elem_of_dom; eauto).
    rewrite decide_True by exact Hin.
    split; [exact IHh|]. split; [exact IHq|].
    split; [rewrite IHd; set_solver|]. auto.
  - (* a new peer *)
    destruct (getConn_new s a Er Ha) as (s1' & Hg & Hh & Hr & Hq).
    rewrite Eg in Hg. injection Hg as <- ->.
    assert (Hnin : a ∉ dom (conns (lsn s))) by (by apply not_elem_of_dom).
    rewrite decide_False by exact Hnin.
    assert (Hd1 : dom (conns (lsn s1)) = {[a]} ∪ dom (conns (lsn s)))
      by (rewrite Hr; apply dom_insert_L).
    rewrite Hd1 in *.
    assert (Hl1 : length (heap s1) = S (length (heap s)))
      by (rewrite Hh, length_app; cbn; lia).
    split; [|split; [|split; [|split; [|split]]]].
    + rewrite IHh, Hh, <- app_assoc. reflexivity.
    + rewrite IHq, Hq, <- app_assoc, Hl1. reflexivity.
    + rewrite IHd. set_solver.
    + intros [|i] a0 Hi; cbn in Hi.
      * injection Hi as <-. rewrite IHo by set_solver.
        rewrite Hr, lookup_insert_eq. f_equal. lia.
      * rewrite (IHi _ _ Hi). f_equal. lia.
    + intros a0 Hin. rewrite IHo by set_solver.
      rewrite Hr. apply lookup_insert_ne. set_solver.
    + constructor; [|exact IHn].
      intros H. apply first_seen_not_seen in H. set_solver.
Qed.

(** ** What [Accept] returns *)

Lemma getConn_lookup_lsn s raddr s' r b :
  getConn_lookup s raddr = (s', r, b) ->
  l_doneCh (lsn s') = l_doneCh (lsn s) /\
  l_doneOnce (lsn s') = l_doneOnce (lsn s) /\
  length (heap s) <= length (heap s').
Proof.
  unfold getConn_lookup. repeat case_match; intros; simplify_eq; cbn;
    rewrite ?length_app; auto with lia.
Qed.

Lemma getConn_lookup_created s raddr s' c :
  getConn_lookup s raddr = (s', Ok c, true) ->
  c = length (heap s) /\ length (heap s') = S (length (heap s)).
Proof.
  unfold getConn_lookup. repeat case_match; intros; simplify_eq; cbn.
  rewrite length_app. cbn. lia.
Qed.

Lemma accept_err_inv_step (m m' : Machine) (a : action) :
  accept_err_inv m -> exec m a = Some m' -> accept_err_inv m'.
Proof.
  intros HA H. unfold accept_err_inv in *. exec_cases H.
  all: cbn; intros t1 e1 Hq1;
       remember (Accept_ret (Err e1)) as q1 eqn:E1 in Hq1;
       lookups; subst; try discriminate;
       try (apply wake_accept in E1); simplify_eq.
  all: try match goal with
       | He : is_entry (Accept_ret _) = true |- _ => discriminate He
       end.
  all: try match goal with
       | Hg : getConn_lookup _ _ = _ |- _ =>
           apply getConn_lookup_lsn in Hg; destruct Hg as (Hg & _ & _);
           rewrite Hg
       end.
  all: try (by eauto).
  all: destruct (HA _ _ Hq1); split; congruence.
Qed.

Lemma wake_loop_acceptSend c lp buf n c1 :
  wake_loop c lp = Loop_acceptSend buf n c1 -> lp = Loop_acceptSend buf n c1.
Proof.
  destruct lp; cbn; try discriminate; auto. destruct (_ =? _); discriminate.
Qed.

Lemma accept_inv_step (m m' : Machine) (a : action) :
  accept_inv m -> exec m a = Some m' -> accept_inv m'.
Proof.
  intros (HA & HU & HL) H. exec_cases H.
  all: split; [|split]; cbn;
    [ intros t1 c1 Hq1; remember (Accept_ret (Ok c1)) as q1 eqn:E1 in Hq1
    | intros t1 t2 c1 Hq1 Hq2;
      remember (Accept_ret (Ok c1)) as q1 eqn:E1 in Hq1;
      remember (Accept_ret (Ok c1)) as q2 eqn:E2 in Hq2
    | intros buf1 n1 c1 Hl1 ];
    lookups; subst; try discriminate;
    try (apply wake_accept in E1); try (apply wake_accept in E2);
    try (apply wake_loop_acceptSend in Hl1);
    simplify_eq.
  all: try match goal with
       | He : is_entry (Accept_ret _) = true |- _ => discriminate He
       end.
  all: rewrite ?length_insert.
  all: repeat match goal with
       | Hx : threads _ !! _ = Some (Accept_ret (Ok _)) |- _ =>
           learn (HA _ _ Hx)
       | Hx : loop _ = Loop_acceptSend _ _ _ |- _ => learn (HL _ _ _ Hx)
       | Hg : getConn_lookup _ _ = (_, Ok _, true) |- _ =>
           learn (getConn_lookup_created _ _ _ _ Hg)
       | Hg : getConn_lookup _ _ = _ |- _ =>
           learn (getConn_lookup_lsn _ _ _ _ _ Hg)
       end.
  all: try (by eauto).
  all: destruct_and?.
  all: try lia.
  all: try (exfalso; by eauto).
  all: try (split; [lia | intros ? ? [= -> -> ->]; lia]).
  all: try (split; [done|]).
  all: try (intros ? ? Hw; apply wake_loop_acceptSend in Hw;
            match goal with
            | Hn : forall _ _, loop _ <> _ |- _ => exact (Hn _ _ Hw)
            end).
  all: exfalso;
       match goal with
       | Hn : forall _ _, Loop_acceptSend _ _ _ <> _ |- _ =>
           exact (Hn _ _ eq_refl)
       end.
Qed.

(** ** The remote address *)

Lemma rAddr_step (m m' : Machine) (a : action) (c : ConnPtr) (conn : Conn) :
  heap (st m) !! c = Some conn -> exec m a = Some m' ->
  exists conn', heap (st m') !! c = Some conn' /\ rAddr conn' = rAddr conn.
Proof.
  intros Hc H. exec_cases H.
  all: cbn.
  all: try (exists conn; split; [|done]; first
              [ assumption | eapply getConn_lookup_heap; by eauto ]).
  all: match goal with
       | |- context [<[?c' := _]> _ !! ?c] =>
           destruct (decide (c = c')) as [->|Hne'];
           [ simplify_eq; rewrite list_lookup_insert_eq
               by (eapply lookup_lt_Some; eauto); by eauto
           | rewrite list_lookup_insert_ne by done; by eauto ]
       end.
Qed.

(** ** [Conn.Close] under its lock *)

Lemma wake_holds_c c p : holds_c (wake c p) = holds_c p.
Proof. destruct p; cbn; try reflexivity. now destruct (_ =? _). Qed.

Lemma wake_in_once c p : in_once (wake c p) = in_once p.
Proof. destruct p; cbn; try reflexivity. now destruct (_ =? _). Qed.

Lemma is_entry_holds_c p : is_entry p = true -> holds_c p = None.
Proof. now destruct p. Qed.

Lemma in_once_holds_c p c : in_once p = Some c -> holds_c p = Some c.
Proof. destruct p; cbn; congruence. Qed.

Lemma is_entry_in_once p : is_entry p = true -> in_once p = None.
Proof. now destruct p. Qed.

Lemma heap_wf_getConn_lookup s raddr s' r b :
  heap_wf s -> getConn_lookup s raddr = (s', r, b) -> heap_wf s'.
Proof.
  intros Hwf. unfold getConn_lookup.
  repeat case_match; intros; simplify_eq; try assumption.
  intros c conn Hc. cbn in Hc. apply lookup_app_Some in Hc.
  destruct Hc as [Hc|[_ Hc]]; [exact (Hwf c conn Hc)|].
  apply list_lookup_singleton_Some in Hc. destruct Hc as [_ <-]. auto.
Qed.

Lemma close_lock_step (m m' : Machine) (a : action) :
  (forall t p c, threads m !! t = Some p -> holds_c p = Some c ->
                 c_lock m !! c = Some t) ->
  exec m a = Some m' ->
  (forall t p c, threads m' !! t = Some p -> holds_c p = Some c ->
                 c_lock m' !! c = Some t).
Proof.
  intros HK H. exec_cases H.
  all: cbn; intros t1 q c1 Hq Hh; lookups; try discriminate;
       rewrite ?wake_holds_c in Hh;
       try (rewrite is_entry_holds_c in Hh by done; discriminate);
       cbn in Hh; simplify_eq.
  all: try (by eauto).
  all: repeat match goal with
       | Hx : threads _ !! ?x = Some ?y, Hy : holds_c ?y = Some _ |- _ =>
           learn (HK x y _ Hx Hy)
       | Hx : threads _ !! ?x = Some ?y |- _ =>
           learn (HK x y _ Hx eq_refl)
       end.
  all: try (rewrite lookup_insert_eq; done).
  all: try (rewrite lookup_insert_ne by congruence; done).
  all: try (rewrite lookup_delete_ne by congruence; done).
Qed.

Lemma heap_wf_step (m m' : Machine) (a : action) :
  close_inv m -> exec m a = Some m' -> heap_wf (st m').
Proof.
  intros (Hwf & HK & HO) H. exec_cases H.
  all: cbn; try assumption.
  all: try (eapply heap_wf_getConn_lookup; by eauto).
  all: intros c1 conn1 Hc1; cbn in Hc1.
  all: apply list_lookup_insert_Some in Hc1;
       destruct Hc1 as [(-> & <- & ?)|(? & Hc1)]; [|exact (Hwf _ _ Hc1)].
  all: cbn; try (split; [done|discriminate]).
  all: match goal with
       | Hx : threads _ !! ?x = Some ?y |- _ =>
           destruct (HO x y _ Hx eq_refl) as (? & ? & ? & ?)
       end; simplify_eq.
  all: destruct (Hwf _ _ ltac:(eassumption)) as [? ?].
  all: split; congruence.
Qed.

Lemma in_once_step (m m' : Machine) (a : action) :
  close_inv m -> exec m a = Some m' ->
  forall t p c, threads m' !! t = Some p -> in_once p = Some c ->
    exists conn, heap (st m') !! c = Some conn /\
                 listener conn = Some thisListener /\
                 c_doneOnce conn = true.
Proof.
  intros (Hwf & HK & HO) H. exec_cases H.
  all: cbn; intros t1 q c1 Hq Hh; lookups; try discriminate;
       rewrite ?wake_in_once in Hh;
       try (rewrite is_entry_in_once in Hh by done; discriminate);
       cbn in Hh; simplify_eq.
  all: try (by eauto).
  all: try (destruct (HO _ _ _ Hq Hh) as (conn0 & Hc0 & Hl0 & Hd0)).
  all: try (exists conn0; split; [|done];
            eapply getConn_lookup_heap; by eauto).
  all: try (pose proof (HK _ _ _ Hq (in_once_holds_c _ _ Hh)) as Hk1;
            match goal with
            | Hx : threads _ !! ?x = Some (_ ?c), Hn : ?x <> _ |- _ =>
                pose proof (HK x _ c Hx eq_refl) as Hk2;
                assert (c1 <> c) by (intros ->; congruence);
                rewrite list_lookup_insert_ne by done; by eauto
            end).
  rewrite list_lookup_insert_eq by (eapply lookup_lt_Some; eauto).
  eexists; split; [reflexivity|]. cbn. split; [|reflexivity].
  destruct (Hwf _ _ Heqo) as [_ Hl]. auto.
Qed.

Lemma close_inv_step (m m' : Machine) (a : action) :
  close_inv m -> exec m a = Some m' -> close_inv m'.
Proof.
  intros HI H. split; [|split].
  - eapply heap_wf_step; eauto.
  - eapply close_lock_step; eauto. apply HI.
  - eapply in_once_step; eauto.
Qed.

Lemma close_inv_boot s : heap_wf s -> close_inv (boot s).
Proof.
  intros Hwf. split; [exact Hwf|]. split; cbn; intros t p c Ht; 
  rewrite lookup_nil in Ht; discriminate.
Qed.

Lemma close_inv_reachable s sched m :
  heap_wf s -> run (boot s) sched = Some m -> close_inv m.
Proof.
  intros Hwf. apply (run_invariant close_inv (fun m a m' => close_inv_step m m' a)).
  now apply close_inv_boot.
Qed.

Lemma heap_length_step (m m' : Machine) (a : action) :
  exec m a = Some m' -> length (heap (st m)) <= length (heap (st m')).
Proof.
  intros H. exec_cases H.
  all: cbn; rewrite ?length_insert; try lia.
  all: match goal with
       | Hg : getConn_lookup _ _ = _ |- _ =>
           unfold getConn_lookup in Hg; repeat case_match; simplify_eq; cbn;
           rewrite ?length_app; lia
       end.
Qed.

(** In [Conn.Close] on a connection that exists, the only thing that stops a
    goroutine is a lock held by someone else. *)
(** X15. In [Conn.Close] on a connection that exists, a goroutine that
    cannot take its next step is waiting for a lock: for [c.lock] at the
    entry, or for the listener's lock inside the once. With connections as
    [newConn] and [Close] leave them, neither [close(c.doneCh)] nor
    [c.listener.lock] panics. *)
Theorem Conn_Close_never_panics (s : State) (sched : list action) (m : Machine)
    (t : tid) (p : pc) (c : ConnPtr) :
  heap_wf s ->
  run (boot s) sched = Some m ->
  threads m !! t = Some p ->
  c < length (heap (st m)) ->
  p ∈ [CClose_Lock c; CClose_Do c; CClose_listenerLock c; CClose_delete c;
       CClose_Unlock c] ->
  exec m (Run t) = None ->
  (p = CClose_Lock c /\ is_Some (c_lock m !! c)) \/
  (p = CClose_listenerLock c /\ is_Some (l_lock m)).
Proof.
  intros Hwf Hrun Ht Hc Hp Hn.
  destruct (close_inv_reachable _ _ _ Hwf Hrun) as (Hw & HK & HO).
  destruct (lookup_lt_is_Some_2 _ _ Hc) as [conn Hconn].
  cbn [exec] in Hn. rewrite Ht in Hn. cbn [mbind option_bind] in Hn.
  rewrite !elem_of_cons in Hp.
  destruct Hp as [->|[->|[->|[->|[->|Hp]]]]]; cbn in Hn.
  - left. split; [done|]. destruct (c_lock m !! c); [eauto|discriminate].
  - rewrite Hconn in Hn. cbn in Hn. destruct (Hw _ _ Hconn) as [He _].
    destruct (c_doneOnce conn); [discriminate|].
    rewrite <- He in Hn. discriminate.
  - destruct (HO _ _ _ Ht eq_refl) as (conn' & Hc' & Hl & _).
    rewrite Hc' in Hn. cbn in Hn. rewrite Hl in Hn.
    right. split; [done|]. destruct (l_lock m); [eauto|discriminate].
  - rewrite Hconn in Hn. discriminate.
  - discriminate.
  - by apply elem_of_nil in Hp.
Qed.

(** ** [Accept] *)

Lemma accept_inv_boot s : accept_inv (boot s).
Proof.
  split; [|split]; cbn; intros; try discriminate.
  all: match goal with
       | H : [] !! _ = Some _ |- _ => rewrite lookup_nil in H; discriminate
       end.
Qed.

Lemma accept_inv_reachable s sched m :
  run (boot s) sched = Some m -> accept_inv m.
Proof.
  apply (run_invariant accept_inv (fun m a m' => accept_inv_step m m' a)).
  apply accept_inv_boot.
Qed.

(** X5. A connection that [Accept] has returned exists, and no other call
    of [Accept] has returned it. *)
Theorem Accept_hands_out_once (s : State) (sched : list action) (m : Machine)
    (t : tid) (c : ConnPtr) :
  run (boot s) sched = Some m ->
  threads m !! t = Some (Accept_ret (Ok c)) ->
  is_Some (heap (st m) !! c) /\
  forall t', threads m !! t' = Some (Accept_ret (Ok c)) -> t' = t.
Proof.
  intros Hrun Ht. destruct (accept_inv_reachable _ _ _ Hrun) as (H1 & H2 & _).
  split.
  - apply lookup_lt_is_Some_2. apply (H1 _ _ Ht).
  - intros t' Ht'. exact (H2 _ _ _ Ht' Ht).
Qed.

Lemma accept_err_inv_reachable s sched m :
  run (boot s) sched = Some m -> accept_err_inv m.
Proof.
  apply (run_invariant accept_err_inv
           (fun m a m' => accept_err_inv_step m m' a)).
  intros t e Ht. cbn in Ht. rewrite lookup_nil in Ht. discriminate.
Qed.

(** X6. An error returned by [Accept] is [errClosedListener], and
    [l.doneCh] is closed by then. *)
Theorem Accept_fails_only_when_closed (s : State) (sched : list action)
    (m : Machine) (t : tid) (e : error) :
  run (boot s) sched = Some m ->
  threads m !! t = Some (Accept_ret (Err e)) ->
  e = errClosedListener /\ l_doneCh (lsn (st m)) = true.
Proof.
  intros Hrun Ht. exact (accept_err_inv_reachable _ _ _ Hrun _ _ Ht).
Qed.

(** X8. [RemoteAddr] of a connection gives the same address for ever,
    also after [Close]. *)
Theorem RemoteAddr_never_changes (m m' : Machine) (sched : list action)
    (c : ConnPtr) (a : Addr) :
  Conn_RemoteAddr (st m) c = Some a ->
  run m sched = Some m' ->
  Conn_RemoteAddr (st m') c = Some a.
Proof.
  intros Ha Hrun. revert Ha Hrun.
  apply (run_invariant (fun m => Conn_RemoteAddr (st m) c = Some a)).
  clear. intros m act m' Ha Hex. unfold Conn_RemoteAddr in *.
  destruct (heap (st m) !! c) as [conn|] eqn:Hc; [|discriminate].
  cbn in Ha. injection Ha as <-.
  destruct (rAddr_step _ _ _ _ _ Hc Hex) as (conn' & -> & Hr).
  cbn. now rewrite Hr.
Qed.

(** ** The socket *)

Lemma sock_inv_step (m m' : Machine) (a : action) :
  sock_inv m -> exec m a = Some m' -> sock_inv m'.
Proof.
  intros (HS & HT) H. exec_cases H.
  all: repeat match goal with
       | Hg : getConn_lookup _ _ = _ |- _ =>
           learn (getConn_lookup_pConn _ _ _ _ _ Hg);
           learn (getConn_lookup_lsn _ _ _ _ _ Hg)
       end; destruct_and?.
  all: split; [|cbn; intros t1 q Hq Hp; lookups].
  all: cbn.
  all: try (by eauto).
  all: try congruence.
  all: try (destruct Hp as [[? Hp]|[? [? Hp]]]; discriminate Hp).
  all: try (intros _; eapply HT; by eauto 6).
  all: try (match goal with
            | Hw : WriteTo _ _ _ = _ |- _ =>
                apply WriteTo_closed in Hw; rewrite Hw; by eauto
            end).
  all: try (intros Hc;
            match goal with
            | Hx : pConn _ = pConn _ |- _ => rewrite Hx in Hc
            end; specialize (HS Hc); congruence).
  all: try (specialize (HT _ _ Hq Hp); congruence).
  - destruct Hp as [[? ->]|[? [? ->]]]; discriminate.
  - eapply HT; [exact Hq|]. clear -Hp.
    destruct x; cbn in Hp; try exact Hp.
    destruct (_ =? _); [|exact Hp].
    destruct Hp as [[? Hp]|[? [? Hp]]]; discriminate Hp.
Qed.

Lemma sock_inv_reachable s sched m :
  closed (pConn (lsn s)) = false -> run (boot s) sched = Some m -> sock_inv m.
Proof.
  intros Hs. apply (run_invariant sock_inv (fun m a m' => sock_inv_step m m' a)).
  split; cbn.
  - rewrite Hs. discriminate.
  - intros t p Ht. rewrite lookup_nil in Ht. discriminate.
Qed.

(** X9. Nothing but the once of [Listener.Close] closes the socket: as long
    as it has not run, the socket [Listen] opened is open. *)
Theorem socket_open_until_Listener_Close (s : State) (sched : list action)
    (m : Machine) :
  closed (pConn (lsn s)) = false ->
  run (boot s) sched = Some m ->
  l_doneOnce (lsn (st m)) = false ->
  closed (pConn (lsn (st m))) = false.
Proof.
  intros Hs Hrun Hd. destruct (sock_inv_reachable _ _ _ Hs Hrun) as [HS _].
  destruct (closed (pConn (lsn (st m)))); [|reflexivity].
  rewrite HS in Hd by reflexivity. discriminate.
Qed.

(** ** The dispatch loop *)

(** X10. A datagram that [readLoop] holds in its select for a connection
    whose [doneCh] is closed is dropped: the [<-conn.doneCh] case can be
    taken, it leads back to [ReadFrom], and no other step moves the loop. *)
Theorem readLoop_drops_for_closed_conn (s : State) (sched : list action)
    (m : Machine) (buf : list byte) (n : nat) (c : ConnPtr) (conn : Conn) :
  run (boot s) sched = Some m ->
  loop m = Loop_select buf n c ->
  heap (st m) !! c = Some conn ->
  c_doneCh conn = true ->
  exec m LoopDone = Some (set_loop (Loop_ReadFrom buf) m) /\
  forall a m', exec m a = Some m' ->
    loop m' = Loop_select buf n c \/ (a = LoopDone /\ loop m' = Loop_ReadFrom buf).
Proof.
  intros Hrun Hl Hc Hd. pose proof (park_inv_reachable _ _ _ Hrun) as [_ HP].
  split.
  - cbn. unfold exec_LoopDone. rewrite Hl, Hc. cbn. now rewrite Hd.
  - intros a m' H. exec_cases H.
    all: cbn; auto.
    all: try congruence.
    + rewrite Hd in *. discriminate.
    + rewrite Hl. cbn. auto.
    + apply Nat.eqb_eq in H1 as ->.
      destruct (HP _ _ _ Ht) as (conn' & Hc' & Hd'). congruence.
Qed.

(** X11. While [readLoop] is parked in its select for a connection, it
    reads no datagram, for any peer; it leaves the select only when a [Read]
    on that connection arrives or when [Close] closes its [doneCh]. *)
Theorem readLoop_stalls_until_Read_or_Close (m : Machine) (buf : list byte)
    (n : nat) (c : ConnPtr) :
  loop m = Loop_parked buf n c ->
  (forall payload raddr, exec m (LoopDeliver payload raddr) = None) /\
  forall a m', exec m a = Some m' ->
    loop m' = Loop_parked buf n c \/
    (exists t p, a = Handoff t /\ threads m !! t = Some (Read_select c p) /\
                 loop m' = Loop_copy buf n c t) \/
    (exists t, a = Run t /\ threads m !! t = Some (CClose_Do c) /\
               loop m' = Loop_ReadFrom buf).
Proof.
  intros Hl. split.
  - intros payload raddr. cbn. unfold exec_LoopDeliver. now rewrite Hl.
  - intros a m' H. exec_cases H.
    all: cbn; auto.
    all: try congruence.
    + rewrite Hl. cbn. destruct (c =? c0) eqn:E; [|auto].
      apply Nat.eqb_eq in E as ->. right. right. eauto.
    + apply Nat.eqb_eq in H1 as ->. right. left. eauto.
Qed.

(** ** The forced close *)

(** X14. A [Listener.Close] waiting in the select of [closeConn] comes to
    its end once the timeout has passed, whatever the registry holds: the
    timer case closes the socket, the listener's lock is released, the call
    returns what [pConn.Close] returned, and the connections stay
    registered. *)
Theorem closeConn_timeout_forces_close (m : Machine) (t : tid)
    (deadline recheck : nat) :
  threads m !! t = Some (LClose_select deadline recheck) ->
  exists m',
    run m [Advance (deadline - now m); Timer t; Run t] = Some m' /\
    closed (pConn (lsn (st m'))) = true /\
    l_lock m' = None /\
    threads m' !! t = Some (LClose_ret (UDPConn_Close (pConn (lsn (st m)))).2) /\
    conns (lsn (st m')) = conns (lsn (st m)) /\
    heap (st m') = heap (st m).
Proof.
  intros Ht. pose proof (lookup_lt_Some _ _ _ Ht) as Hlt.
  cbn [run exec mbind option_bind]. cbn [threads set_now].
  rewrite Ht. cbn [mbind option_bind exec_Timer now set_now].
  destruct (deadline <=? now m + (deadline - now m)) eqn:E;
    [|apply Nat.leb_gt in E; lia].
  unfold close_socket. cbn [st set_now].
  destruct (UDPConn_Close (pConn (lsn (st m)))) as [u err] eqn:EC.
  cbn [mbind option_bind exec set_thread threads set_threads set_st].
  rewrite list_lookup_insert_eq by exact Hlt.
  cbn [mbind option_bind exec_Run].
  eexists. split; [reflexivity|]. cbn.
  rewrite list_insert_insert_eq, list_lookup_insert_eq by exact Hlt.
  repeat split.
  unfold UDPConn_Close in EC. destruct (closed (pConn (lsn (st m)))) eqn:Hcl;
    simplify_eq; auto.
Qed.

(** ** A datagram on its way to [Read] *)

(** X13. A datagram from a registered peer, with a [Read] waiting on the
    peer's connection: [ReadFrom], [getConn], the select, the copy and the
    send on [sizeCh] hand the head of the datagram to that [Read], which
    returns the number of bytes that fit both buffers and no error; the
    rest of the caller's buffer is untouched, no state of the multiplexer
    changes, and the loop is back at [ReadFrom]. *)
Theorem datagram_reaches_its_Read (m : Machine) (t : tid) (c : ConnPtr)
    (buf payload cBuf : list byte) (raddr : Addr) :
  loop m = Loop_ReadFrom buf ->
  closed (pConn (lsn (st m))) = false ->
  l_lock m = None ->
  conns (lsn (st m)) !! raddr = Some c ->
  threads m !! t = Some (Read_parked c cBuf) ->
  let n := Nat.min (length cBuf) (Nat.min (length buf) (length payload)) in
  exists m',
    run m [LoopDeliver payload raddr; LoopRun; LoopRun; Handoff t; LoopRun;
           SizeRv t] = Some m' /\
    threads m' !! t = Some (Read_ret n None (firstn n payload ++ skipn n cBuf)) /\
    (exists buf', loop m' = Loop_ReadFrom buf' /\ length buf' = length buf) /\
    st m' = st m /\ l_lock m' = None.
Proof.
  intros Hl Hs Hk Hc Ht n.
  assert (Hlt : t < length (threads m)) by (eapply lookup_lt_Some; eauto).
  pose proof (handoff_truncates buf payload cBuf) as HT.
  destruct (ReadFrom buf payload) as [buf' n0] eqn:ER.
  destruct (copy cBuf (firstn n0 buf')) as [cBuf' n'] eqn:EC.
  destruct HT as (Hn & Hlen & Htk & Hdr). fold n in Hn. subst n'.
  assert (Hb : length buf' = length buf).
  { unfold ReadFrom in ER. injection ER as <- _.
    change (length (copy buf payload).1 = length buf). apply copy_length. }
  destruct m as [s ll cl lp th nw]. cbn in Hl, Hs, Hk, Hc, Ht, Hlt. subst lp ll.
  cbn [run exec mbind option_bind]. unfold exec_LoopDeliver.
  cbn [loop st]. rewrite Hs, ER. cbn [mbind option_bind].
  unfold exec_LoopRun at 1. cbn. unfold getConn_lookup. rewrite Hc. cbn.
  rewrite Ht. cbn. rewrite Nat.eqb_refl. cbn.
  rewrite list_lookup_insert_eq by exact Hlt.
  unfold copy in EC. injection EC as E1 E2. cbn. rewrite E1, E2.
  rewrite list_lookup_insert_eq by (rewrite length_insert; exact Hlt).
  cbn. rewrite Nat.eqb_refl. cbn.
  eexists. split; [reflexivity|]. cbn.
  rewrite list_lookup_insert_eq by (rewrite !length_insert; exact Hlt).
  split; [|split; [eauto|split; reflexivity]].
  do 2 f_equal. rewrite <- Htk, <- Hdr. symmetry. apply take_drop.
Qed.

(** ** [Listener.Close] and a waiting [Accept] *)

Lemma wake_past_once c p : past_once (wake c p) = past_once p.
Proof. destruct p; cbn; try reflexivity. now destruct (_ =? _). Qed.

Lemma is_entry_past_once p : is_entry p = true -> past_once p = false.
Proof. now destruct p. Qed.

Lemma done_inv_step (m m' : Machine) (a : action) :
  done_inv m -> exec m a = Some m' -> done_inv m'.
Proof.
  intros (HD & HT) H. exec_cases H.
  all: repeat match goal with
       | Hg : getConn_lookup _ _ = _ |- _ =>
           learn (getConn_lookup_lsn _ _ _ _ _ Hg)
       end; destruct_and?.
  all: split; [|cbn; intros t1 q Hq Hp; lookups;
                 rewrite ?wake_past_once in Hp;
                 try (rewrite is_entry_past_once in Hp by done; discriminate);
                 try discriminate].
  all: cbn.
  all: try (by eauto).
  all: try congruence.
  all: try (eapply HT; [eassumption|reflexivity]).
Qed.

Lemma done_inv_reachable s sched m :
  (l_doneOnce (lsn s) = true -> l_doneCh (lsn s) = true) ->
  run (boot s) sched = Some m -> done_inv m.
Proof.
  intros Hs. apply (run_invariant done_inv (fun m a m' => done_inv_step m m' a)).
  split; [exact Hs|]. cbn. intros t p Ht. rewrite lookup_nil in Ht.
  discriminate.
Qed.

(** X7. Once a call of [Listener.Close] has returned, every [Accept] that
    waits can return, with [errClosedListener]. *)
Theorem Listener_Close_unblocks_Accept (s : State) (sched : list action)
    (m : Machine) (u t : tid) (e : option error) :
  (l_doneOnce (lsn s) = true -> l_doneCh (lsn s) = true) ->
  run (boot s) sched = Some m ->
  threads m !! u = Some (LClose_ret e) ->
  threads m !! t = Some Accept_select ->
  exec m (Done t) = Some (set_thread t (Accept_ret (Err errClosedListener)) m).
Proof.
  intros Hs Hrun Hu Ht. destruct (done_inv_reachable _ _ _ Hs Hrun) as [HD HT].
  cbn. rewrite Ht. cbn. rewrite HD; [reflexivity|].
  exact (HT _ _ Hu eq_refl).
Qed.

(** ** A parked [Read] *)

(** X12. A [Read] parked in its select stays there until the loop takes
    its buffer for a datagram of that connection, or [Close] closes the
    connection's [doneCh], which makes it return 0 and [io.EOF]. *)
Theorem Read_waits_for_datagram_or_Close (m m' : Machine) (a : action)
    (t : tid) (c : ConnPtr) (p : list byte) :
  threads m !! t = Some (Read_parked c p) ->
  exec m a = Some m' ->
  threads m' !! t = Some (Read_parked c p) \/
  (a = Handoff t /\ threads m' !! t = Some (Read_sizeRecv c p) /\
   exists buf n, loop m = Loop_select buf n c) \/
  (exists u, a = Run u /\ threads m !! u = Some (CClose_Do c) /\
             threads m' !! t = Some (Read_ret 0 (Some EOF) p)).
Proof.
  intros Hr H. pose proof (lookup_lt_Some _ _ _ Hr) as Hlt. exec_cases H.
  all: cbn; auto.
  all: try (left; apply lookup_app_l_Some; assumption).
  all: try match goal with
       | Hx : threads _ !! ?r = Some (Read_parked _ _)
         |- context [<[?x := _]> _ !! ?r] =>
           destruct (decide (x = r)) as [->|Hne];
           [ simplify_eq
           | rewrite list_lookup_insert_ne by done ]
       end.
  all: auto.
  all: try (rewrite list_lookup_fmap;
            match goal with
            | Hx : threads _ !! _ = Some (Read_parked _ _) |- _ => rewrite Hx
            end; cbn).
  - destruct (c =? c0) eqn:E; [|auto].
    apply Nat.eqb_eq in E as ->. right. right. eauto.
  - apply Nat.eqb_eq in H1 as ->. right. left.
    rewrite list_lookup_insert_eq by exact Hlt. eauto.
Qed.

(** ** Instances *)

Lemma heap_wf_one_peer : heap_wf one_peer.
Proof.
  intros c conn H. destruct c as [|c]; cbn in H.
  - injection H as <-. split; reflexivity.
  - destruct c; discriminate H.
Qed.

Lemma registry_entries_are_live_witness :
  exists m',
    run (boot accepting_empty) first_datagram = Some m' /\ reg_wf (st m').
Proof.
  destruct (run (boot accepting_empty) first_datagram) as [m'|] eqn:E;
    [|vm_compute in E; discriminate E].
  exists m'. split; [reflexivity|].
  apply (registry_entries_are_live (boot accepting_empty) m' first_datagram);
    [apply reg_wf_empty; reflexivity | exact E].
Defined.

Lemma getConn_own_address_witness :
  exists s',
    getConn accepting_empty peerA = (s', Ok 0) /\
    reg_wf s' /\
    conns (lsn s') !! peerA = Some 0 /\
    exists conn, heap s' !! 0 = Some conn /\ rAddr conn = peerA /\
                 listener conn = Some thisListener.
Proof.
  exists (getConn accepting_empty peerA).1. split; [reflexivity|].
  apply (getConn_own_address accepting_empty _ peerA 0);
    [apply reg_wf_empty; reflexivity | reflexivity].
Defined.

Lemma getConns_first_seen_witness :
  let raddrs := [peerB; peerA; peerB; peerC] in
  let fresh := first_seen (dom (conns (lsn one_peer))) raddrs in
  accepting (lsn one_peer) = true /\
  heap (getConns one_peer raddrs).1 = heap one_peer ++ (newConn <$> fresh) /\
  NoDup fresh.
Proof.
  intros raddrs fresh. split; [reflexivity|].
  destruct (getConns_first_seen one_peer raddrs eq_refl)
    as (H1 & _ & _ & _ & _ & H6).
  split; assumption.
Defined.

Lemma closed_address_is_reused_witness :
  exists s1 s2,
    Conn_Close one_peer 0 = Some (s1, None) /\
    getConn s1 peerA = (s2, Ok 1) /\
    conns (lsn s2) !! peerA = Some 1 /\
    heap s2 !! 0 = Some (mkConn None peerA true true).
Proof.
  destruct (closed_address_is_reused one_peer 0 (newConn peerA)
              eq_refl eq_refl eq_refl eq_refl eq_refl)
    as (s1 & s2 & H1 & _ & H3 & _ & H5 & _ & H7 & _).
  exists s1, s2. split; [exact H1|]. split; [exact H3|].
  split; [exact H7 | exact H5].
Defined.

Lemma Accept_hands_out_once_witness :
  exists m,
    run (boot accepting_empty) accept_first = Some m /\
    threads m !! 0 = Some (Accept_ret (Ok 0)) /\
    is_Some (heap (st m) !! 0) /\
    forall t', threads m !! t' = Some (Accept_ret (Ok 0)) -> t' = 0.
Proof.
  destruct (run (boot accepting_empty) accept_first) as [m|] eqn:E;
    [|vm_compute in E; discriminate E].
  assert (Ht : threads m !! 0 = Some (Accept_ret (Ok 0))).
  { vm_compute in E. injection E as <-. reflexivity. }
  exists m. split; [reflexivity|]. split; [exact Ht|].
  exact (Accept_hands_out_once accepting_empty accept_first m 0 0 E Ht).
Defined.

Lemma Accept_fails_only_when_closed_witness :
  exists m,
    run (boot listening) (close_unblocks ++ [Done 0]) = Some m /\
    threads m !! 0 = Some (Accept_ret (Err errClosedListener)) /\
    errClosedListener = errClosedListener /\
    l_doneCh (lsn (st m)) = true.
Proof.
  destruct (run (boot listening) (close_unblocks ++ [Done 0])) as [m|] eqn:E;
    [|vm_compute in E; discriminate E].
  assert (Ht : threads m !! 0 = Some (Accept_ret (Err errClosedListener))).
  { vm_compute in E. injection E as <-. reflexivity. }
  exists m. split; [reflexivity|]. split; [exact Ht|].
  exact (Accept_fails_only_when_closed listening _ m 0 errClosedListener E Ht).
Defined.

Lemma RemoteAddr_never_changes_witness :
  exists m',
    run (boot one_peer) close_then_read = Some m' /\
    Conn_RemoteAddr (st m') 0 = Some peerA.
Proof.
  destruct (run (boot one_peer) close_then_read) as [m'|] eqn:E;
    [|vm_compute in E; discriminate E].
  exists m'. split; [reflexivity|].
  exact (RemoteAddr_never_changes (boot one_peer) m' close_then_read 0 peerA
           eq_refl E).
Defined.

Lemma socket_open_until_Listener_Close_witness :
  exists m,
    run (boot listening) two_datagrams = Some m /\
    l_doneOnce (lsn (st m)) = false /\
    closed (pConn (lsn (st m))) = false.
Proof.
  destruct (run (boot listening) two_datagrams) as [m|] eqn:E;
    [|vm_compute in E; discriminate E].
  assert (Hd : l_doneOnce (lsn (st m)) = false).
  { vm_compute in E. injection E as <-. reflexivity. }
  exists m. split; [reflexivity|]. split; [exact Hd|].
  exact (socket_open_until_Listener_Close listening two_datagrams m
           eq_refl E Hd).
Defined.

Lemma readLoop_drops_for_closed_conn_witness :
  exists m buf n,
    run (boot one_peer) close_at_select = Some m /\
    loop m = Loop_select buf n 0 /\
    exec m LoopDone = Some (set_loop (Loop_ReadFrom buf) m).
Proof.
  destruct (run (boot one_peer) close_at_select) as [m|] eqn:E;
    [|vm_compute in E; discriminate E].
  assert (Hl : exists buf n, loop m = Loop_select buf n 0).
  { vm_compute in E. injection E as <-. eexists _, _. reflexivity. }
  assert (Hc : heap (st m) !! 0 = Some (mkConn (Some thisListener) peerA true true)).
  { vm_compute in E. injection E as <-. reflexivity. }
  destruct Hl as (buf & n & Hl).
  exists m, buf, n. split; [reflexivity|]. split; [exact Hl|].
  exact (proj1 (readLoop_drops_for_closed_conn one_peer close_at_select m buf n
                  0 _ E Hl Hc eq_refl)).
Defined.

Lemma readLoop_stalls_until_Read_or_Close_witness :
  exists m,
    run (boot one_peer) loop_parks = Some m /\
    exec m (LoopDeliver hello peerB) = None.
Proof.
  destruct (run (boot one_peer) loop_parks) as [m|] eqn:E;
    [|vm_compute in E; discriminate E].
  assert (Hl : exists buf n, loop m = Loop_parked buf n 0).
  { vm_compute in E. injection E as <-. eexists _, _. reflexivity. }
  destruct Hl as (buf & n & Hl).
  exists m. split; [reflexivity|].
  exact (proj1 (readLoop_stalls_until_Read_or_Close m buf n 0 Hl) hello peerB).
Defined.

Lemma closeConn_timeout_forces_close_witness :
  exists m m',
    run (boot one_peer) (close_begins ++ [Run 0]) = Some m /\
    run m [Advance (300 - now m); Timer 0; Run 0] = Some m' /\
    closed (pConn (lsn (st m'))) = true /\
    l_lock m' = None /\
    conns (lsn (st m')) = conns (lsn (st m)).
Proof.
  destruct (run (boot one_peer) (close_begins ++ [Run 0])) as [m|] eqn:E;
    [|vm_compute in E; discriminate E].
  assert (Ht : threads m !! 0 = Some (LClose_select 300 100)).
  { vm_compute in E. injection E as <-. reflexivity. }
  destruct (closeConn_timeout_forces_close m 0 300 100 Ht)
    as (m' & H1 & H2 & H3 & _ & H5 & _).
  exists m, m'. split; [reflexivity|]. split; [exact H1|].
  split; [exact H2|]. split; [exact H3 | exact H5].
Defined.

Lemma Conn_Close_never_panics_witness :
  exists m,
    run (boot one_peer) two_closers = Some m /\
    exec m (Run 1) = None /\
    ((CClose_Lock 0 = CClose_Lock 0 /\ is_Some (c_lock m !! 0)) \/
     (CClose_Lock 0 = CClose_listenerLock 0 /\ is_Some (l_lock m))).
Proof.
  destruct (run (boot one_peer) two_closers) as [m|] eqn:E;
    [|vm_compute in E; discriminate E].
  assert (Ht : threads m !! 1 = Some (CClose_Lock 0)).
  { vm_compute in E. injection E as <-. reflexivity. }
  assert (Hh : 0 < length (heap (st m))).
  { vm_compute in E. injection E as <-. cbn. lia. }
  assert (Hn : exec m (Run 1) = None).
  { vm_compute in E. injection E as <-. reflexivity. }
  exists m. split; [reflexivity|]. split; [exact Hn|].
  apply (Conn_Close_never_panics one_peer two_closers m 1 (CClose_Lock 0) 0
           heap_wf_one_peer E Ht Hh); [constructor | exact Hn].
Defined.

Lemma Listener_Close_unblocks_Accept_witness :
  exists m,
    run (boot listening) close_unblocks = Some m /\
    exec m (Done 0)
      = Some (set_thread 0 (Accept_ret (Err errClosedListener)) m).
Proof.
  destruct (run (boot listening) close_unblocks) as [m|] eqn:E;
    [|vm_compute in E; discriminate E].
  assert (Hu : threads m !! 1 = Some (LClose_ret None)).
  { vm_compute in E. injection E as <-. reflexivity. }
  assert (Ht : threads m !! 0 = Some Accept_select).
  { vm_compute in E. injection E as <-. reflexivity. }
  exists m. split; [reflexivity|].
  apply (Listener_Close_unblocks_Accept listening close_unblocks m 1 0 None);
    [intros H; discriminate H | exact E | exact Hu | exact Ht].
Defined.

Lemma Read_waits_for_datagram_or_Close_witness :
  exists m m',
    run (boot one_peer) reader_parks = Some m /\
    exec m (LoopDeliver hello peerA) = Some m' /\
    (threads m' !! 0
       = Some (Read_parked 0 [Byte.x00; Byte.x00; Byte.x00]) \/
     (LoopDeliver hello peerA = Handoff 0 /\
      threads m' !! 0
        = Some (Read_sizeRecv 0 [Byte.x00; Byte.x00; Byte.x00]) /\
      exists buf n, loop m = Loop_select buf n 0) \/
     (exists u, LoopDeliver hello peerA = Run u /\
                threads m !! u = Some (CClose_Do 0) /\
                threads m' !! 0
                  = Some (Read_ret 0 (Some EOF)
                            [Byte.x00; Byte.x00; Byte.x00]))).
Proof.
  destruct (run (boot one_peer) reader_parks) as [m|] eqn:E;
    [|vm_compute in E; discriminate E].
  assert (Ht : threads m !! 0
               = Some (Read_parked 0 [Byte.x00; Byte.x00; Byte.x00])).
  { vm_compute in E. injection E as <-. reflexivity. }
  destruct (exec m (LoopDeliver hello peerA)) as [m'|] eqn:E';
    [|vm_compute in E; injection E as <-; vm_compute in E'; discriminate E'].
  exists m, m'. split; [reflexivity|]. split; [exact E'|].
  exact (Read_waits_for_datagram_or_Close m m' (LoopDeliver hello peerA) 0 0 _
           Ht E').
Defined.

Lemma datagram_reaches_its_Read_witness :
  exists m buf m',
    run (boot one_peer) reader_parks = Some m /\
    loop m = Loop_ReadFrom buf /\
    let n := Nat.min 3 (Nat.min (length buf) (length hello)) in
    run m [LoopDeliver hello peerA; LoopRun; LoopRun; Handoff 0; LoopRun;
           SizeRv 0] = Some m' /\
    threads m' !! 0
      = Some (Read_ret n None
                (firstn n hello ++ skipn n [Byte.x00; Byte.x00; Byte.x00])).
Proof.
  destruct (run (boot one_peer) reader_parks) as [m|] eqn:E;
    [|vm_compute in E; discriminate E].
  assert (Hl : exists buf, loop m = Loop_ReadFrom buf).
  { vm_compute in E. injection E as <-. eexists. reflexivity. }
  assert (Hs : closed (pConn (lsn (st m))) = false).
  { vm_compute in E. injection E as <-. reflexivity. }
  assert (Hk : l_lock m = None).
  { vm_compute in E. injection E as <-. reflexivity. }
  assert (Hc : conns (lsn (st m)) !! peerA = Some 0).
  { vm_compute in E. injection E as <-. reflexivity. }
  assert (Ht : threads m !! 0
               = Some (Read_parked 0 [Byte.x00; Byte.x00; Byte.x00])).
  { vm_compute in E. injection E as <-. reflexivity. }
  destruct Hl as (buf & Hl).
  destruct (datagram_reaches_its_Read m 0 0 buf hello _ peerA Hl Hs Hk Hc Ht)
    as (m' & H1 & H2 & _).
  exists m, buf, m'. split; [reflexivity|]. split; [exact Hl|].
  split; [exact H1 | exact H2].
Defined.

(** ** After [readLoop] has returned *)

Lemma exit_step (m m' : Machine) (a : action) :
  loop m = Loop_exit -> exec m a = Some m' ->
  loop m' = Loop_exit /\
  length (heap (st m')) = length (heap (st m)) /\
  conns (lsn (st m')) ⊆ conns (lsn (st m)) /\
  acceptCh (lsn (st m')) = acceptCh (lsn (st m)) /\
  forall t n p, threads m' !! t = Some (Read_ret n None p) ->
                threads m !! t = Some (Read_ret n None p).
Proof.
  intros Hl H. exec_cases H.
  all: try congruence.
  all: cbn; rewrite ?length_insert.
  all: split; [first [assumption | rewrite Hl; reflexivity]|].
  all: split; [reflexivity|].
  all: split; [first [reflexivity | apply delete_subseteq]|].
  all: split; [reflexivity|].
  all: intros t1 n1 p1 Hq; try assumption.
  all: repeat match goal with
       | H : <[_:=_]> _ !! _ = Some _ |- _ =>
           apply list_lookup_insert_Some in H;
           destruct H as [(? & Heq & ?)|(? & H)]; [discriminate Heq|]
       | H : (_ ++ [_]) !! _ = Some _ |- _ =>
           apply lookup_app_Some in H; destruct H as [H|(? & H)];
           [|apply list_lookup_singleton_Some in H; destruct H as [_ H];
             subst; discriminate]
       end; try assumption.
  rewrite list_lookup_fmap in Hq.
  destruct (threads m !! t1) as [q|]; [|discriminate Hq].
  cbn in Hq. destruct q; cbn in Hq; try exact Hq.
  destruct (_ =? _); [discriminate Hq | exact Hq].
Qed.

(** X21. [readLoop] returns at the first error of [ReadFrom] and is not
    started again: from then on the loop stays ended, no connection is
    created, none is sent on [acceptCh], the registry can only lose
    entries, and no [Read] returns data that had not returned it
    already. *)
Theorem readLoop_exit_is_final (m m' : Machine) (sched : list action) :
  loop m = Loop_exit ->
  run m sched = Some m' ->
  loop m' = Loop_exit /\
  length (heap (st m')) = length (heap (st m)) /\
  conns (lsn (st m')) ⊆ conns (lsn (st m)) /\
  acceptCh (lsn (st m')) = acceptCh (lsn (st m)) /\
  forall t n p, threads m' !! t = Some (Read_ret n None p) ->
                threads m !! t = Some (Read_ret n None p).
Proof.
  intros Hl Hrun. revert Hrun.
  apply (run_invariant (fun m1 =>
           loop m1 = Loop_exit /\
           length (heap (st m1)) = length (heap (st m)) /\
           conns (lsn (st m1)) ⊆ conns (lsn (st m)) /\
           acceptCh (lsn (st m1)) = acceptCh (lsn (st m)) /\
           forall t n p, threads m1 !! t = Some (Read_ret n None p) ->
                         threads m !! t = Some (Read_ret n None p))).
  - intros m1 a m2 (H1 & H2 & H3 & H4 & H5) Hex.
    destruct (exit_step _ _ _ H1 Hex) as (G1 & G2 & G3 & G4 & G5).
    split; [exact G1|]. split; [congruence|].
    split; [etrans; eassumption|]. split; [congruence|]. auto.
  - split; [exact Hl|]. repeat split; auto.
Qed.

Lemma readLoop_exit_is_final_witness :
  exists m m',
    run (boot one_peer) [LoopRun; LoopFail] = Some m /\
    run m read_after_exit = Some m' /\
    loop m' = Loop_exit /\
    acceptCh (lsn (st m')) = acceptCh (lsn (st m)).
Proof.
  destruct (run (boot one_peer) [LoopRun; LoopFail]) as [m|] eqn:E;
    [|vm_compute in E; discriminate E].
  assert (Hl : loop m = Loop_exit).
  { vm_compute in E. injection E as <-. reflexivity. }
  destruct (run m read_after_exit) as [m'|] eqn:E';
    [|vm_compute in E; injection E as <-; vm_compute in E'; discriminate E'].
  exists m, m'. split; [reflexivity|]. split; [exact E'|].
  destruct (readLoop_exit_is_final m m' read_after_exit Hl E')
    as (H1 & _ & _ & H4 & _).
  split; [exact H1 | exact H4].
Defined.

End MoreUDPProofs.

(* ===================================================================== *)
(** * More of the payload and of the key pairs                            *)
(* ===================================================================== *)

Module MoreAppDataProofs.
Import AppData AppDataProofs.

(** A slice on an array of the store denotes the same bytes after an
    allocation. *)
Lemma bytes_extends (m tl : Mem) (s : slice) :
  arr s < length m -> bytes (m ++ tl) s = bytes m s.
Proof.
  intros H. unfold bytes. now rewrite app_nth1.
Qed.

(** X16. The fragment [Marshal] returns is on an array of its own: the
    store only grows, a store through the fragment does not reach the
    payload nor one through the payload the fragment, and a second
    [Marshal] returns another array with the same bytes. *)
Theorem Marshal_copies (m : Mem) (a : applicationData) (fragmentLen : Z) :
  arr (data a) < length m ->
  exists m2 raw,
    Marshal m a fragmentLen = (m2, ([raw], None)) /\
    extends m m2 /\
    arr raw = length m /\
    (forall i b, bytes (store_byte m2 raw i b) (data a) = bytes m (data a)) /\
    (forall i b, bytes (store_byte m2 (data a) i b) raw = bytes m (data a)) /\
    exists m3 raw',
      Marshal m2 a fragmentLen = (m3, ([raw'], None)) /\
      arr raw' <> arr raw /\
      bytes m3 raw' = bytes m3 raw.
Proof.
  intros Ha.
  set (b := bytes m (data a)).
  exists (m ++ [b]), (mkSlice (length m) 0 (length b)).
  assert (Hb2 : bytes (m ++ [b]) (data a) = b) by now apply bytes_extends.
  split; [reflexivity|]. split; [now exists [b]|]. split; [reflexivity|].
  split; [|split].
  - intros i x. rewrite bytes_store_other by (cbn; lia). exact Hb2.
  - intros i x. rewrite bytes_store_other by (cbn; lia). apply bytes_fresh.
  - eexists _, _. split; [reflexivity|]. cbn [arr]. split.
    + rewrite length_app. cbn. lia.
    + rewrite Hb2. rewrite bytes_fresh.
      rewrite bytes_extends by (cbn; rewrite length_app; cbn; lia).
      symmetry. apply bytes_fresh.
Qed.

(** X17. [Unmarshal] replaces the payload, it never appends: after two
    calls the payload is the bytes of the second argument; the array of the
    first call is still in the store, unchanged. Each call allocates one
    array. *)
Theorem Unmarshal_overwrites (m : Mem) (a : applicationData) (d1 d2 : slice) :
  arr d1 < length m -> arr d2 < length m ->
  exists m1 a1 m2 a2,
    Unmarshal m a d1 = (m1, a1, None) /\
    Unmarshal m1 a1 d2 = (m2, a2, None) /\
    extends m m2 /\
    bytes m2 (data a2) = bytes m d2 /\
    bytes m2 (data a1) = bytes m d1 /\
    length m2 = 2 + length m.
Proof.
  intros H1 H2. unfold Unmarshal, append_empty. eexists _, _, _, _.
  split; [reflexivity|]. split; [reflexivity|]. cbn [data].
  split; [eexists; symmetry; rewrite <- app_assoc; reflexivity|].
  rewrite (bytes_extends m _ d2) by exact H2.
  split; [|split].
  - apply (bytes_fresh (m ++ [bytes m d1])).
  - rewrite bytes_extends by (cbn; rewrite length_app; cbn; lia).
    apply bytes_fresh.
  - rewrite !length_app. cbn. lia.
Qed.

Lemma Marshal_copies_witness :
  arr hello_slice < length hello_mem /\
  exists m2 raw,
    Marshal hello_mem (mkAD hello_slice) 2 = (m2, ([raw], None)) /\
    extends hello_mem m2 /\
    (forall i b, bytes (store_byte m2 raw i b) hello_slice
                 = bytes hello_mem hello_slice) /\
    (forall i b, bytes (store_byte m2 hello_slice i b) raw
                 = bytes hello_mem hello_slice).
Proof.
  split; [cbn; lia|].
  destruct (Marshal_copies hello_mem (mkAD hello_slice) 2)
    as (m2 & raw & H1 & H2 & _ & H4 & H5 & _); [cbn; lia|].
  exists m2, raw. split; [exact H1|]. split; [exact H2|].
  split; [exact H4 | exact H5].
Defined.

Lemma Unmarshal_overwrites_witness :
  exists m1 a1 m2 a2,
    Unmarshal hello_mem (mkAD (mkSlice 0 0 0)) hello_slice = (m1, a1, None) /\
    Unmarshal m1 a1 lo_slice = (m2, a2, None) /\
    extends hello_mem m2 /\
    bytes m2 (data a2) = bytes hello_mem lo_slice /\
    bytes m2 (data a1) = bytes hello_mem hello_slice /\
    length m2 = 2 + length hello_mem.
Proof.
  apply (Unmarshal_overwrites hello_mem (mkAD (mkSlice 0 0 0)) hello_slice
           lo_slice); cbn; lia.
Defined.

End MoreAppDataProofs.

Module MoreCurveProofs.
Import Curve CurveProofs.

Lemma namedCurves_keys (c : namedCurve) :
  (is_Some (namedCurves !! c) <-> supported c) /\
  (forall b, namedCurves !! c = Some b -> b = true).
Proof.
  unfold namedCurves, supported.
  split; [split|].
  - intros [b Hb]. rewrite !lookup_insert_Some in Hb.
    rewrite lookup_empty in Hb. intuition (try discriminate; auto).
  - intros [-> | [-> | [-> | ->]]]; vm_compute; eauto.
  - intros b Hb. rewrite !lookup_insert_Some in Hb.
    rewrite lookup_empty in Hb. intuition (try discriminate; auto).
Qed.

Lemma skipn_repeat (x : byte) (n k : nat) :
  skipn k (repeat x n) = repeat x (n - k).
Proof.
  revert k. induction n as [|n IH]; intros [|k]; cbn; try reflexivity.
  apply IH.
Qed.

Lemma copy_shape (dst src : list byte) :
  length (copy dst src) = length dst /\
  firstn (Nat.min (length dst) (length src)) (copy dst src)
    = firstn (length dst) src /\
  skipn (length src) (copy dst src) = skipn (length src) dst.
Proof.
  unfold copy.
  assert (Hl : length (firstn (length dst) src)
               = Nat.min (length dst) (length src)) by apply length_take.
  split; [|split].
  - rewrite length_app, Hl, length_drop. lia.
  - rewrite <- Hl. apply take_app_length.
  - destruct (Nat.le_gt_cases (length src) (length dst)) as [Hle|Hgt].
    + assert (Hf : firstn (length dst) src = src) by (apply firstn_all2; lia).
      rewrite Hf. apply drop_app_length.
    + rewrite !drop_ge; [reflexivity|lia|].
      rewrite length_app, Hl, length_drop. lia.
Qed.

Section WithCrypto.

Variable rand_Read : nat -> result (list byte).
Variable ScalarBaseMult : list byte -> list byte.
Variable GenerateKey : ellipticCurve -> result (list byte * Z * Z).
Variable elliptic_Marshal : ellipticCurve -> Z -> Z -> list byte.

Local Abbreviation gen :=
  (generateKeypair rand_Read ScalarBaseMult GenerateKey elliptic_Marshal).

(** X18. The table [namedCurves] and the switch of [generateKeypair] agree:
    an identifier that is no key of the table gets [errInvalidNamedCurve];
    a key of the table has the value [true] and a case in the switch, so an
    error for it comes from the random source. *)
Theorem namedCurves_agrees_with_switch (c : namedCurve) :
  (namedCurves !! c = None -> gen c = Err errInvalidNamedCurve) /\
  (forall b, namedCurves !! c = Some b ->
     b = true /\
     forall e, gen c = Err e ->
       rand_Read 32 = Err e \/ exists crv, GenerateKey crv = Err e).
Proof.
  destruct (namedCurves_keys c) as [Hk Hv]. split.
  - intros Hn. apply generateKeypair_unsupported. intros Hs.
    apply Hk in Hs. rewrite Hn in Hs. now destruct Hs.
  - intros b Hb. split; [exact (Hv b Hb)|]. intros e.
    apply generateKeypair_error_origin. apply Hk. eauto.
Qed.

(** X19. A key pair for X25519 has a private key of 32 bytes, which are the
    bytes [rand.Read] gave (zeros after them, had it given fewer), and its
    public key is [ScalarBaseMult] of that private key. *)
Theorem X25519_keypair_shape (kp : namedCurveKeypair) :
  gen namedCurveX25519 = Ok kp ->
  length (privateKey kp) = 32 /\
  publicKey kp = ScalarBaseMult (privateKey kp) /\
  exists tmp, rand_Read 32 = Ok tmp /\
    firstn (Nat.min 32 (length tmp)) (privateKey kp) = firstn 32 tmp /\
    skipn (length tmp) (privateKey kp) = repeat Byte.x00 (32 - length tmp).
Proof.
  unfold generateKeypair. cbn [Z.eqb namedCurveX25519 Pos.eqb].
  destruct (rand_Read 32) as [tmp|e]; [|discriminate].
  intros H.
  assert (Hkp : kp = mkKeypair namedCurveX25519
                  (ScalarBaseMult (copy (repeat Byte.x00 32) tmp))
                  (copy (repeat Byte.x00 32) tmp)) by congruence.
  clear H. subst kp. cbn [privateKey publicKey].
  destruct (copy_shape (repeat Byte.x00 32) tmp) as (H1 & H2 & H3).
  rewrite repeat_length in H1, H2.
  split; [exact H1|]. split; [reflexivity|].
  exists tmp. split; [reflexivity|]. split; [exact H2|].
  rewrite H3. apply skipn_repeat.
Qed.

(** X20. For P-256, P-384 and P-521 the key is generated, and the public
    point marshalled, on the curve that was asked for. *)
Theorem P_curve_key_material (c : namedCurve) (crv : ellipticCurve)
    (kp : namedCurveKeypair) :
  curve_of c = Some crv ->
  gen c = Ok kp ->
  exists x y,
    GenerateKey crv = Ok (privateKey kp, x, y) /\
    publicKey kp = elliptic_Marshal crv x y.
Proof.
  unfold curve_of, generateKeypair.
  destruct (Z.eqb_spec c namedCurveP256) as [->|H1].
  { intros [= <-]. cbn.
    destruct (GenerateKey P256) as [[[pk x] y]|]; [|discriminate].
    intros [= <-]. eauto. }
  destruct (Z.eqb_spec c namedCurveP384) as [->|H2].
  { intros [= <-]. cbn.
    destruct (GenerateKey P384) as [[[pk x] y]|]; [|discriminate].
    intros [= <-]. eauto. }
  destruct (Z.eqb_spec c namedCurveP521) as [->|H3].
  { intros [= <-]. cbn.
    destruct (GenerateKey P521) as [[[pk x] y]|]; [|discriminate].
    intros [= <-]. eauto. }
  discriminate.
Qed.

End WithCrypto.
Lemma namedCurves_agrees_with_switch_witness :
  namedCurves !! 7%Z = None /\
  generateKeypair rand_ok sbm_stub genkey_ok marshal_stub 7%Z
    = Err errInvalidNamedCurve /\
  namedCurves !! namedCurveP384 = Some true /\
  forall e,
    generateKeypair rand_fails sbm_stub genkey_ok marshal_stub namedCurveP384
      = Err e ->
    rand_fails 32 = Err e \/ exists crv, genkey_ok crv = Err e.
Proof.
  split; [reflexivity|]. split.
  - apply (namedCurves_agrees_with_switch rand_ok sbm_stub genkey_ok
             marshal_stub 7%Z). reflexivity.
  - split; [reflexivity|].
    apply (namedCurves_agrees_with_switch rand_fails sbm_stub genkey_ok
             marshal_stub namedCurveP384) with true. reflexivity.
Defined.

Lemma X25519_keypair_shape_witness :
  exists kp,
    generateKeypair rand_ok sbm_stub genkey_ok marshal_stub namedCurveX25519
      = Ok kp /\
    length (privateKey kp) = 32 /\
    publicKey kp = sbm_stub (privateKey kp).
Proof.
  eexists. split; [reflexivity|].
  destruct (X25519_keypair_shape rand_ok sbm_stub genkey_ok marshal_stub _
              eq_refl) as (H1 & H2 & _).
  split; [exact H1 | exact H2].
Defined.

Lemma P_curve_key_material_witness :
  exists kp,
    generateKeypair rand_ok sbm_stub genkey_ok marshal_stub namedCurveP384
      = Ok kp /\
    exists x y,
      genkey_ok P384 = Ok (privateKey kp, x, y) /\
      publicKey kp = marshal_stub P384 x y.
Proof.
  eexists. split; [reflexivity|].
  apply (P_curve_key_material rand_ok sbm_stub genkey_ok marshal_stub
           namedCurveP384 P384); reflexivity.
Defined.

End MoreCurveProofs.
